(** * Provenance analysis of the ObjC ARC optimizer

    A shallow embedding of [lib/Transforms/ObjCARC/ProvenanceAnalysis.cpp]:
    the memoized relatedness query [related], its decision procedure
    [relatedCheck], the structural decomposition of phi and select nodes
    ([relatedPHI], [relatedSelect]) and the escape detector
    [isStoredObjCPointer].

    IR values are natural numbers; their order is the pointer order used by
    [related] to canonicalize a pair ([if (A > B) std::swap(A, B)]).  The IR
    accessors and the external collaborators ([GetUnderlyingObjCPtr],
    [IsObjCIdentifiedObject] and the base alias analysis [AA->alias]) are
    fields of a record [IR].  The analysis instance is a [state] holding the
    cache [CachedResults] and an instrumentation trace of the cache writes and
    of the runs of [relatedCheck]. *)

From Stdlib Require Import Arith Lia Bool.
From stdpp Require Import base gmap list.

(** ** Data model *)

(** Node kinds the analysis dispatches on ([isa<...>] / [dyn_cast<...>]). *)
Inductive Kind :=
  | Generic
  | Load
  | Store
  | Call
  | Phi (parent : nat) (incoming : list (nat * nat))  (* (value, block) *)
  | Select (cond tval fval : nat)
  | PointerCast
  | PtrToInt.

Inductive AliasResult := NoAlias | MayAlias | PartialAlias | MustAlias.

(** A function body: node kinds, use lists [(user, operand number)], the
    collaborators, and the number of values (value ids are below it in a
    closed IR). *)
Record IR := {
  kind : nat -> Kind;
  uses : nat -> list (nat * nat);
  GetUnderlyingObjCPtr : nat -> nat;
  IsObjCIdentifiedObject : nat -> bool;
  alias : nat -> nat -> AliasResult;
  nvalues : nat
}.

Definition isa_Load (k : Kind) : bool := match k with Load => true | _ => false end.
Definition isa_Store (k : Kind) : bool := match k with Store => true | _ => false end.
Definition isa_Call (k : Kind) : bool := match k with Call => true | _ => false end.
Definition isa_PtrToInt (k : Kind) : bool := match k with PtrToInt => true | _ => false end.
Definition isa_Phi (k : Kind) : bool := match k with Phi _ _ => true | _ => false end.
Definition isa_Select (k : Kind) : bool := match k with Select _ _ _ => true | _ => false end.

(** Cache keys ([ValuePairTy]) and the instrumentation events. *)
Abbreviation key := (nat * nat)%type.

Inductive event :=
  | EvInsert (k : key)             (* pending insert of [true] *)
  | EvCheck (k : key)              (* a run of [relatedCheck] *)
  | EvOverwrite (k : key) (r : bool). (* final overwrite *)

Record state := mkState {
  CachedResults : gmap key bool;
  trace : list event
}.

Definition init_state : state := mkState ∅ [].

(** A state monad with failure: [None] is an exhausted fuel or a failed
    assertion of the IR accessors. *)
Definition M (A : Type) : Type := state -> option (A * state).

Definition ret {A} (a : A) : M A := fun st => Some (a, st).
Definition failM {A} : M A := fun _ => None.
Definition bind {A B} (m : M A) (k : A -> M B) : M B :=
  fun st => match m st with Some (a, st') => k a st' | None => None end.

Notation "x <- m ;; k" := (bind m (fun x => k))
  (at level 100, m at next level, right associativity).

(** Short-circuit [||] of two queries. *)
Definition orM (m1 m2 : M bool) : M bool :=
  r1 <- m1 ;; if r1 then ret true else m2.

Definition liftM (o : option bool) : M bool :=
  fun st => match o with Some b => Some (b, st) | None => None end.

Section Provenance.

Variable ir : IR.

(** [if (A > B) std::swap(A, B)] *)
Definition key_of (A B : nat) : key := if B <? A then (B, A) else (A, B).

(** [PHINode::getIncomingValueForBlock]: the first entry for the block; a
    missing block is the accessor's assertion failure. *)
Fixpoint getIncomingValueForBlock (inc : list (nat * nat)) (bb : nat) : option nat :=
  match inc with
  | [] => None
  | (v, blk) :: inc' => if blk =? bb then Some v else getIncomingValueForBlock inc' bb
  end.

(** ** [isStoredObjCPointer] *)

Inductive scan_result := Escaped | Scanned (wl vis : list nat).

(** The inner [for] loop over the uses of [P]. *)
Fixpoint scan_uses (P : nat) (us : list (nat * nat)) (Worklist Visited : list nat)
    : scan_result :=
  match us with
  | [] => Scanned Worklist Visited
  | (Ur, opno) :: us' =>
      if isa_Store (kind ir Ur) then
        (if opno =? 0 then Escaped                       (* the pointer is stored *)
         else scan_uses P us' Worklist Visited)          (* stored through *)
      else if isa_Call (kind ir Ur) then scan_uses P us' Worklist Visited
      else if isa_PtrToInt (kind ir P) then Escaped      (* assume the worst *)
      else if bool_decide (Ur ∈ Visited) then scan_uses P us' Worklist Visited
      else scan_uses P us' (Ur :: Worklist) (Ur :: Visited)
  end.

(** The [do ... while (!Worklist.empty())] loop. *)
Fixpoint isStored_loop (fuel : nat) (Worklist Visited : list nat) : option bool :=
  match fuel with
  | 0 => None
  | S fuel' =>
      match Worklist with
      | [] => Some false
      | P :: wl =>
          match scan_uses P (uses ir P) wl Visited with
          | Escaped => Some true
          | Scanned [] _ => Some false
          | Scanned wl' vis' => isStored_loop fuel' wl' vis'
          end
      end
  end.

(** Each round pops a value that was pushed once, so [nvalues + 1] rounds
    suffice on a closed IR. *)
Definition isStoredObjCPointer (P : nat) : option bool :=
  isStored_loop (S (nvalues ir)) [P] [P].

(** ** [relatedSelect], [relatedPHI], [relatedCheck] over a recursive query *)

Section WithRelated.

Variable related_rec : nat -> nat -> M bool.

Definition relatedSelect (c t f : nat) (B : nat) : M bool :=
  match kind ir B with
  | Select c2 t2 f2 =>
      if c =? c2 then orM (related_rec t t2) (related_rec f f2)
      else orM (related_rec t B) (related_rec f B)
  | _ => orM (related_rec t B) (related_rec f B)
  end.

(** Same block: corresponding edges. *)
Fixpoint relatedPHI_sameblock (incA incB : list (nat * nat)) : M bool :=
  match incA with
  | [] => ret false
  | (v, blk) :: incA' =>
      match getIncomingValueForBlock incB blk with
      | None => failM
      | Some w => orM (related_rec v w) (relatedPHI_sameblock incA' incB)
      end
  end.

(** Otherwise: each unique source against [B]. *)
Fixpoint relatedPHI_unique (incA : list (nat * nat)) (B : nat) (UniqueSrc : list nat)
    : M bool :=
  match incA with
  | [] => ret false
  | (PV1, _) :: incA' =>
      if bool_decide (PV1 ∈ UniqueSrc) then relatedPHI_unique incA' B UniqueSrc
      else orM (related_rec PV1 B) (relatedPHI_unique incA' B (PV1 :: UniqueSrc))
  end.

Definition relatedPHI (parentA : nat) (incA : list (nat * nat)) (B : nat) : M bool :=
  match kind ir B with
  | Phi parentB incB =>
      if parentB =? parentA then relatedPHI_sameblock incA incB
      else relatedPHI_unique incA B []
  | _ => relatedPHI_unique incA B []
  end.

(** Special handling for PHI and Select, in the source's order. *)
Definition decompose (A B : nat) : M bool :=
  match kind ir A with
  | Phi pa inc => relatedPHI pa inc B
  | _ =>
    match kind ir B with
    | Phi pb inc => relatedPHI pb inc A
    | _ =>
      match kind ir A with
      | Select c t f => relatedSelect c t f B
      | _ =>
        match kind ir B with
        | Select c t f => relatedSelect c t f A
        | _ => ret true                              (* conservative *)
        end
      end
    end
  end.

Definition relatedCheck (A0 B0 : nat) : M bool :=
  let A := GetUnderlyingObjCPtr ir A0 in
  let B := GetUnderlyingObjCPtr ir B0 in
  if A =? B then ret true else
  match alias ir A B with
  | NoAlias => ret false
  | MustAlias | PartialAlias => ret true
  | MayAlias =>
      let AIsIdentified := IsObjCIdentifiedObject ir A in
      let BIsIdentified := IsObjCIdentifiedObject ir B in
      if AIsIdentified then
        if isa_Load (kind ir B) then liftM (isStoredObjCPointer A)
        else if BIsIdentified then
          (if isa_Load (kind ir A) then liftM (isStoredObjCPointer B)
           else ret false)
        else decompose A B
      else if BIsIdentified then
        (if isa_Load (kind ir A) then liftM (isStoredObjCPointer B)
         else decompose A B)
      else decompose A B
  end.

End WithRelated.

(** ** [related]: the memoized, recursion-safe query *)

(** The conservative entry inserted before the real computation. *)
Definition pending (st : state) (k : key) : state :=
  {| CachedResults := <[k := true]> (CachedResults st);
     trace := trace st ++ [EvInsert k; EvCheck k] |}.

Definition finish (st : state) (k : key) (r : bool) : state :=
  {| CachedResults := <[k := r]> (CachedResults st);
     trace := trace st ++ [EvOverwrite k r] |}.

Fixpoint related (fuel : nat) (A B : nat) : M bool :=
  match fuel with
  | 0 => failM
  | S fuel' => fun st =>
      let k := key_of A B in
      match CachedResults st !! k with
      | Some r => Some (r, st)
      | None =>
          match relatedCheck (related fuel') k.1 k.2 (pending st k) with
          | None => None
          | Some (r, st2) => Some (r, finish st2 k r)
          end
      end
  end.

End Provenance.

(** ** Shape of one [relatedCheck] step

    Every path of [relatedCheck] either answers at once, fails, or is a
    short-circuit [||] over recursive queries (optionally ending in a failed
    [getIncomingValueForBlock] assertion).  [node_of] computes that shape;
    [relatedCheck_node] shows [relatedCheck] is exactly its evaluation. *)

Section Shape.

Variable ir : IR.

Inductive node :=
  | NLeaf (b : bool)
  | NOr (calls : list (nat * nat)) (tail_fail : bool)
  | NFail.

Fixpoint sameblock_calls (incA incB : list (nat * nat)) : list (nat * nat) * bool :=
  match incA with
  | [] => ([], false)
  | (v, blk) :: incA' =>
      match getIncomingValueForBlock incB blk with
      | None => ([], true)
      | Some w => ((v, w) :: (sameblock_calls incA' incB).1,
                   (sameblock_calls incA' incB).2)
      end
  end.

Fixpoint unique_calls (incA : list (nat * nat)) (B : nat) (seen : list nat)
    : list (nat * nat) :=
  match incA with
  | [] => []
  | (PV1, _) :: incA' =>
      if bool_decide (PV1 ∈ seen) then unique_calls incA' B seen
      else (PV1, B) :: unique_calls incA' B (PV1 :: seen)
  end.

Definition phi_node (parentA : nat) (incA : list (nat * nat)) (B : nat) : node :=
  match kind ir B with
  | Phi parentB incB =>
      if parentB =? parentA
      then NOr (sameblock_calls incA incB).1 (sameblock_calls incA incB).2
      else NOr (unique_calls incA B []) false
  | _ => NOr (unique_calls incA B []) false
  end.

Definition select_node (c t f : nat) (B : nat) : node :=
  match kind ir B with
  | Select c2 t2 f2 =>
      if c =? c2 then NOr [(t, t2); (f, f2)] false
      else NOr [(t, B); (f, B)] false
  | _ => NOr [(t, B); (f, B)] false
  end.

Definition decompose_node (A B : nat) : node :=
  match kind ir A with
  | Phi pa inc => phi_node pa inc B
  | _ =>
    match kind ir B with
    | Phi pb inc => phi_node pb inc A
    | _ =>
      match kind ir A with
      | Select c t f => select_node c t f B
      | _ =>
        match kind ir B with
        | Select c t f => select_node c t f A
        | _ => NLeaf true
        end
      end
    end
  end.

Definition leaf_of (o : option bool) : node :=
  match o with Some b => NLeaf b | None => NFail end.

Definition node_of (A0 B0 : nat) : node :=
  let A := GetUnderlyingObjCPtr ir A0 in
  let B := GetUnderlyingObjCPtr ir B0 in
  if A =? B then NLeaf true else
  match alias ir A B with
  | NoAlias => NLeaf false
  | MustAlias | PartialAlias => NLeaf true
  | MayAlias =>
      if IsObjCIdentifiedObject ir A then
        if isa_Load (kind ir B) then leaf_of (isStoredObjCPointer ir A)
        else if IsObjCIdentifiedObject ir B then
          (if isa_Load (kind ir A) then leaf_of (isStoredObjCPointer ir B)
           else NLeaf false)
        else decompose_node A B
      else if IsObjCIdentifiedObject ir B then
        (if isa_Load (kind ir A) then leaf_of (isStoredObjCPointer ir B)
         else decompose_node A B)
      else decompose_node A B
  end.

Fixpoint run_or (rel : nat -> nat -> M bool) (calls : list (nat * nat)) (tf : bool)
    : M bool :=
  match calls with
  | [] => if tf then failM else ret false
  | (x, y) :: cs => orM (rel x y) (run_or rel cs tf)
  end.

Definition run_node (rel : nat -> nat -> M bool) (n : node) : M bool :=
  match n with
  | NLeaf b => ret b
  | NOr cs tf => run_or rel cs tf
  | NFail => failM
  end.

End Shape.


(** ** Semantics of the memoized query

    [refuted C k]: from cache [C], the query for the pair [k] is settled to
    [false] by a finite derivation through keys that are not cached (a
    cached [false], a [false] leaf, or an [||] whose calls are all refuted).
    Since a cache hit on a pending entry answers [true], cycles through
    uncached keys are never refuted.  [related_spec] shows that a query
    answers [false] exactly for refuted keys, whatever the order in which
    the recursion explores them. *)

Section Semantics.

Variable ir : IR.

Fixpoint refutedn (C : gmap key bool) (n : nat) (k : key) : Prop :=
  match n with
  | 0 => False
  | S n' =>
      C !! k = Some false ∨
      (C !! k = None ∧
       match node_of ir k.1 k.2 with
       | NLeaf b => b = false
       | NOr cs tf => tf = false ∧ Forall (fun c => refutedn C n' (key_of c.1 c.2)) cs
       | NFail => False
       end)
  end.

Definition refuted (C : gmap key bool) (k : key) : Prop := ∃ n, refutedn C n k.

Definition extends_false (C C' : gmap key bool) : Prop :=
  ∀ x v, C !! x = None → C' !! x = Some v → v = false ∧ refuted C x.

Definition query_ok (C C' : gmap key bool) (r : bool) : Prop :=
  C ⊆ C' ∧ (r = false → extends_false C C').

(** Each pair newly cached from [C] holds [false] exactly when it is
    refuted from [C]. *)
Definition new_ok (C C' : gmap key bool) : Prop :=
  ∀ x v, C !! x = None → C' !! x = Some v → (v = false ↔ refuted C x).

(** Every cached answer is the one a fresh instance would give. *)
Definition good_cache (C : gmap key bool) : Prop :=
  ∀ x v, C !! x = Some v → (v = false ↔ refuted ∅ x).

End Semantics.


(** ** The escape detector

    [traversed V P]: [P] is reached by [isStoredObjCPointer V] (a user is
    pushed when it is neither a store nor a call and the current value is
    not a pointer-to-integer cast).  [escaping_use P u]: the use [u] of [P]
    makes the search answer [true]. *)

Section Escape.

Variable ir : IR.

Definition escaping_use (P : nat) (u : nat * nat) : Prop :=
  (isa_Store (kind ir u.1) = true ∧ u.2 = 0) ∨
  (isa_Store (kind ir u.1) = false ∧ isa_Call (kind ir u.1) = false ∧
   isa_PtrToInt (kind ir P) = true).

Definition fwd_in (us : list (nat * nat)) (P Ur : nat) : Prop :=
  ∃ opno, (Ur, opno) ∈ us ∧ isa_Store (kind ir Ur) = false ∧
          isa_Call (kind ir Ur) = false ∧ isa_PtrToInt (kind ir P) = false.

Definition forwards (P Ur : nat) : Prop := fwd_in (uses ir P) P Ur.

Inductive traversed (V : nat) : nat → Prop :=
  | trav_root : traversed V V
  | trav_step P Ur : traversed V P → forwards P Ur → traversed V Ur.

(** Loop invariant of a search that has not escaped: every visited value
    that is no longer on the worklist was fully scanned. *)
Definition scanned_inv (V : nat) (wl vis : list nat) : Prop :=
  V ∈ vis ∧ (∀ x, x ∈ wl → x ∈ vis) ∧ NoDup wl ∧
  (∀ x, x ∈ vis → x ∉ wl →
     (∀ u, u ∈ uses ir x → ¬ escaping_use x u) ∧ (∀ y, forwards x y → y ∈ vis)).

(** Termination on a closed use graph. *)
Definition uses_closed : Prop :=
  ∀ v u, v < nvalues ir → u ∈ uses ir v → u.1 < nvalues ir.

End Escape.


(** ** Termination on a finite IR

    A closed IR mentions only values below [nvalues]; in a well-formed one
    every incoming block of a phi is an incoming block of every phi of the
    same block (one entry per predecessor).  Each query that does real work
    caches a new pair of values below [nvalues], so the number of uncached
    pairs bounds the depth of the recursion. *)

Section Termination.

Variable ir : IR.

Definition ir_closed : Prop :=
  uses_closed ir ∧
  ∀ v, v < nvalues ir →
    GetUnderlyingObjCPtr ir v < nvalues ir ∧
    (∀ p inc, kind ir v = Phi p inc → ∀ x, x ∈ inc → x.1 < nvalues ir) ∧
    (∀ c t f, kind ir v = Select c t f → t < nvalues ir ∧ f < nvalues ir).

Definition phi_blocks_wf : Prop :=
  ∀ a b p inca incb, kind ir a = Phi p inca → kind ir b = Phi p incb →
    ∀ x, x ∈ inca → ∃ w, getIncomingValueForBlock incb x.2 = Some w.

Definition all_keys : list key := list_prod (seq 0 (nvalues ir)) (seq 0 (nvalues ir)).

Definition uncached (C : gmap key bool) (k : key) : bool :=
  match C !! k with None => true | Some _ => false end.

Definition measure (C : gmap key bool) : nat := length (List.filter (uncached C) all_keys).

Definition calls_bounded (cs : list (nat * nat)) : Prop :=
  ∀ c, c ∈ cs → c.1 < nvalues ir ∧ c.2 < nvalues ir.

End Termination.


(** ** States reached by a sequence of queries

    [reachable] states are those of one analysis instance after any
    sequence of top-level [related] queries.  Two invariants hold there:
    a pair whose answer does not recurse (a leaf) is cached with that
    answer, and the instrumentation trace mentions only cached pairs and
    records at most one [relatedCheck] and at most two writes per pair. *)

Section Invariants.

Variable ir : IR.

Inductive reachable : state → Prop :=
  | reachable_init : reachable init_state
  | reachable_query f A B st r st' :
      reachable st → related ir f A B st = Some (r, st') → reachable st'.

Definition leaf_inv (C : gmap key bool) : Prop :=
  ∀ k b v, node_of ir k.1 k.2 = NLeaf b → C !! k = Some v → v = b.

(** *** Trace accounting *)

Definition event_key (e : event) : key :=
  match e with EvInsert k | EvCheck k | EvOverwrite k _ => k end.

Fixpoint count_check (k : key) (tr : list event) : nat :=
  match tr with
  | [] => 0
  | EvCheck k' :: tr' => (if decide (k' = k) then 1 else 0) + count_check k tr'
  | _ :: tr' => count_check k tr'
  end.

Fixpoint count_write (k : key) (tr : list event) : nat :=
  match tr with
  | [] => 0
  | EvInsert k' :: tr' | EvOverwrite k' _ :: tr' =>
      (if decide (k' = k) then 1 else 0) + count_write k tr'
  | _ :: tr' => count_write k tr'
  end.

(** A computation from [st] to [st'] grows the cache and appends events
    about pairs that were uncached in [st] and are cached in [st'],
    at most one [relatedCheck] and two writes for each. *)
Definition seg_ok (C C' : gmap key bool) (new : list event) : Prop :=
  (∀ e, e ∈ new → C !! event_key e = None ∧ is_Some (C' !! event_key e)) ∧
  (∀ k, count_check k new ≤ 1 ∧ count_write k new ≤ 2).

Definition step_seg (st st' : state) : Prop :=
  CachedResults st ⊆ CachedResults st' ∧
  ∃ new, trace st' = trace st ++ new ∧ seg_ok (CachedResults st) (CachedResults st') new.

End Invariants.


(** ** Reaching the structural decomposition

    [reaches_decomposition A B]: for the canonical values of [A] and [B],
    none of the earlier steps of [relatedCheck] answers (they differ, the
    oracle says [MayAlias], and the identified-object shortcuts do not
    apply).  The oracle is symmetric in its verdict. *)

Section Decomposition.

Variable ir : IR.

Definition escape_gate (A B : nat) : bool :=
  if IsObjCIdentifiedObject ir A then isa_Load (kind ir B) || IsObjCIdentifiedObject ir B
  else IsObjCIdentifiedObject ir B && isa_Load (kind ir A).

Definition is_MayAlias (a : AliasResult) : bool :=
  match a with MayAlias => true | _ => false end.

Definition reaches_decomposition (A0 B0 : nat) : bool :=
  let A := GetUnderlyingObjCPtr ir A0 in
  let B := GetUnderlyingObjCPtr ir B0 in
  negb (A =? B) && is_MayAlias (alias ir A B) && negb (escape_gate A B).

Definition phi_values_wf : Prop :=
  ∀ v p inc, kind ir v = Phi p inc →
    ∀ x, x ∈ inc → getIncomingValueForBlock inc x.2 = Some x.1.

Definition phi_refuted (C : gmap key bool) (incA incB : list (nat * nat)) : Prop :=
  ∀ x w, x ∈ incA → getIncomingValueForBlock incB x.2 = Some w → refuted ir C (key_of x.1 w).

End Decomposition.


(** ** Example programs

    Small IRs for concrete runs.  Values are numbered by address; the
    oracle is a symmetric table of verdicts, [MustAlias] on equal values
    and [MayAlias] elsewhere. *)

Fixpoint alias_table (tbl : list (nat * nat * AliasResult)) (a b : nat) : AliasResult :=
  match tbl with
  | [] => MayAlias
  | (x, y, r) :: tbl' =>
      if ((x =? a) && (y =? b)) || ((x =? b) && (y =? a)) then r
      else alias_table tbl' a b
  end.

Definition table_alias (tbl : list (nat * nat * AliasResult)) (a b : nat) : AliasResult :=
  if a =? b then MustAlias else alias_table tbl a b.

(** [V] identified, cast by [ptrtoint] to [1]; the integer is only passed
    to the call [3]; [2] is a load. *)
Definition ir_ptrtoint_call : IR := {|
  kind := fun v => match v with 1 => PtrToInt | 2 => Load | 3 => Call | _ => Generic end;
  uses := fun v => match v with 0 => [(1, 0)] | 1 => [(3, 0)] | _ => [] end;
  GetUnderlyingObjCPtr := fun v => v;
  IsObjCIdentifiedObject := fun v => v =? 0;
  alias := table_alias [];
  nvalues := 4
|}.

(** The same, with the integer also used by an arithmetic instruction [4]. *)
Definition ir_ptrtoint_arith : IR := {|
  kind := fun v => match v with 1 => PtrToInt | 2 => Load | 3 => Call | _ => Generic end;
  uses := fun v => match v with 0 => [(1, 0)] | 1 => [(3, 0); (4, 0)] | _ => [] end;
  GetUnderlyingObjCPtr := fun v => v;
  IsObjCIdentifiedObject := fun v => v =? 0;
  alias := table_alias [];
  nvalues := 5
|}.

(** Two values the oracle separates. *)
Definition ir_noalias : IR := {|
  kind := fun _ => Generic;
  uses := fun _ => [];
  GetUnderlyingObjCPtr := fun v => v;
  IsObjCIdentifiedObject := fun _ => false;
  alias := table_alias [(0, 1, NoAlias)];
  nvalues := 2
|}.

(** A self-referential phi: [1 = phi [0, b20], [1, b21]] against [2]; the
    oracle separates [0] and [2]. *)
Definition ir_selfphi : IR := {|
  kind := fun v => match v with 1 => Phi 10 [(0, 20); (1, 21)] | _ => Generic end;
  uses := fun v => match v with 0 => [(1, 0)] | 1 => [(1, 1)] | _ => [] end;
  GetUnderlyingObjCPtr := fun v => v;
  IsObjCIdentifiedObject := fun _ => false;
  alias := table_alias [(0, 2, NoAlias)];
  nvalues := 3
|}.

(** [0 = select c9, 2, 3] and [1 = select c9, 4, 5]: the true arms are
    disjoint, the false arms overlap. *)
Definition ir_select : IR := {|
  kind := fun v => match v with 0 => Select 9 2 3 | 1 => Select 9 4 5 | _ => Generic end;
  uses := fun _ => [];
  GetUnderlyingObjCPtr := fun v => v;
  IsObjCIdentifiedObject := fun _ => false;
  alias := table_alias [(2, 4, NoAlias); (3, 5, MustAlias)];
  nvalues := 6
|}.

(** Two phis of block 7: [0 = phi [2, b20], [3, b21]] and
    [1 = phi [4, b20], [5, b21]].  Corresponding incoming values are
    separated; the cross term [2, 5] is a must-alias. *)
Definition ir_phi : IR := {|
  kind := fun v => match v with
                   | 0 => Phi 7 [(2, 20); (3, 21)]
                   | 1 => Phi 7 [(4, 20); (5, 21)]
                   | _ => Generic end;
  uses := fun _ => [];
  GetUnderlyingObjCPtr := fun v => v;
  IsObjCIdentifiedObject := fun _ => false;
  alias := table_alias [(2, 4, NoAlias); (3, 5, NoAlias); (2, 5, MustAlias); (3, 4, NoAlias)];
  nvalues := 6
|}.

(** Two identified objects that are not loads. *)
Definition ir_identified : IR := {|
  kind := fun _ => Generic;
  uses := fun _ => [];
  GetUnderlyingObjCPtr := fun v => v;
  IsObjCIdentifiedObject := fun v => v <? 2;
  alias := table_alias [];
  nvalues := 2
|}.

(** Identified loads [0] and [1]: [0] is stored by [2], [1] is only passed
    to the call [3]; [4] is a load that is not identified. *)
Definition ir_loads : IR := {|
  kind := fun v => match v with 0 | 1 | 4 => Load | 2 => Store | 3 => Call | _ => Generic end;
  uses := fun v => match v with 0 => [(2, 0)] | 1 => [(3, 1)] | _ => [] end;
  GetUnderlyingObjCPtr := fun v => v;
  IsObjCIdentifiedObject := fun v => v <? 2;
  alias := table_alias [];
  nvalues := 5
|}.

(** [1] is a pointer cast of [0]: both have the underlying object [0]. *)
Definition ir_cast : IR := {|
  kind := fun v => match v with 1 => PointerCast | _ => Generic end;
  uses := fun _ => [];
  GetUnderlyingObjCPtr := fun v => match v with 1 => 0 | _ => v end;
  IsObjCIdentifiedObject := fun _ => false;
  alias := table_alias [(0, 2, NoAlias)];
  nvalues := 3
|}.

(** Selects on different conditions: [0 = select c8, 2, 3] and
    [1 = select c9, 4, 5]. *)
Definition ir_select2 : IR := {|
  kind := fun v => match v with 0 => Select 8 2 3 | 1 => Select 9 4 5 | _ => Generic end;
  uses := fun _ => [];
  GetUnderlyingObjCPtr := fun v => v;
  IsObjCIdentifiedObject := fun _ => false;
  alias := table_alias [(2, 1, NoAlias); (2, 4, NoAlias); (2, 5, NoAlias)];
  nvalues := 6
|}.

(** Phis of different blocks: [0 = phi [2, b20], [3, b21]] in block 7 and
    [1 = phi [4, b20], [5, b21]] in block 8. *)
Definition ir_phi2 : IR := {|
  kind := fun v => match v with
                   | 0 => Phi 7 [(2, 20); (3, 21)]
                   | 1 => Phi 8 [(4, 20); (5, 21)]
                   | _ => Generic end;
  uses := fun _ => [];
  GetUnderlyingObjCPtr := fun v => v;
  IsObjCIdentifiedObject := fun _ => false;
  alias := table_alias [(2, 4, NoAlias); (2, 5, NoAlias); (3, 4, NoAlias); (3, 5, NoAlias)];
  nvalues := 6
|}.

Definition run_result (o : option (bool * state)) : bool :=
  match o with Some (r, _) => r | None => true end.

Definition run_state (o : option (bool * state)) : state :=
  match o with Some (_, s) => s | None => init_state end.

(** Membership in a concrete list, one case per element. *)
Ltac elem_cases H :=
  repeat (apply elem_of_cons in H as [->|H]; [simpl; try lia|]);
  try (inversion H; fail).

(** ** Facts about the model *)

(** *** Lemmas on the shape of a [relatedCheck] step *)

Section Shape_facts.

Variable ir : IR.

Lemma sameblock_run rel incA incB :
  relatedPHI_sameblock rel incA incB =
  run_or rel (sameblock_calls incA incB).1 (sameblock_calls incA incB).2.
Proof.
  induction incA as [|[v blk] incA IH]; [reflexivity|].
  simpl. destruct (getIncomingValueForBlock incB blk); [|reflexivity].
  simpl. rewrite IH. reflexivity.
Qed.

Lemma unique_run rel incA B seen :
  relatedPHI_unique rel incA B seen = run_or rel (unique_calls incA B seen) false.
Proof.
  revert seen. induction incA as [|[v blk] incA IH]; intros seen; [reflexivity|].
  simpl. destruct (bool_decide (v ∈ seen)); [apply IH|].
  simpl. rewrite IH. reflexivity.
Qed.

Lemma relatedPHI_run rel pa inc B :
  relatedPHI ir rel pa inc B = run_node rel (phi_node ir pa inc B).
Proof.
  unfold relatedPHI, phi_node.
  destruct (kind ir B); try apply unique_run.
  destruct (parent =? pa); [apply sameblock_run | apply unique_run].
Qed.

Lemma orM_ret_false m st : orM m (ret false) st = m st.
Proof. unfold orM, bind. destruct (m st) as [[[|] ?]|]; reflexivity. Qed.

Lemma relatedSelect_run rel c t f B st :
  relatedSelect ir rel c t f B st = run_node rel (select_node ir c t f B) st.
Proof.
  unfold relatedSelect, select_node.
  destruct (kind ir B); try (simpl; unfold orM, bind;
    destruct (rel t _ st) as [[[|] ?]|]; [reflexivity| |reflexivity];
    symmetry; apply orM_ret_false).
  case_match; simpl; unfold orM, bind;
    destruct (rel t _ st) as [[[|] ?]|]; try reflexivity;
    symmetry; apply orM_ret_false.
Qed.

Lemma decompose_run rel A B st :
  decompose ir rel A B st = run_node rel (decompose_node ir A B) st.
Proof.
  unfold decompose, decompose_node.
  destruct (kind ir A); try (rewrite relatedPHI_run; reflexivity);
  destruct (kind ir B); try (rewrite relatedPHI_run; reflexivity);
  try apply relatedSelect_run; reflexivity.
Qed.

Lemma liftM_leaf rel o : liftM o = run_node rel (leaf_of o).
Proof. destruct o; reflexivity. Qed.

Lemma relatedCheck_node rel A B st :
  relatedCheck ir rel A B st = run_node rel (node_of ir A B) st.
Proof.
  unfold relatedCheck, node_of.
  destruct (_ =? _); [reflexivity|].
  destruct (alias ir _ _); try reflexivity.
  repeat match goal with
         | |- context [if ?c then _ else _] => destruct c
         end;
  first [rewrite (liftM_leaf rel); reflexivity | apply decompose_run | reflexivity].
Qed.

End Shape_facts.

(** *** Lemmas on the memoized query and its refutation semantics *)

Section Semantics_facts.

Variable ir : IR.

Lemma key_of_comm A B : key_of A B = key_of B A.
Proof.
  unfold key_of.
  destruct (B <? A) eqn:E1, (A <? B) eqn:E2;
    rewrite ?Nat.ltb_lt, ?Nat.ltb_ge in *; try reflexivity;
    first [exfalso; lia | f_equal; lia].
Qed.

Lemma key_of_idem A B : key_of (key_of A B).1 (key_of A B).2 = key_of A B.
Proof.
  unfold key_of at 2 3 4.
  destruct (B <? A) eqn:E; simpl; unfold key_of; [|rewrite E; reflexivity].
  rewrite Nat.ltb_lt in E. replace (A <? B) with false; [reflexivity|].
  symmetry. apply Nat.ltb_ge. lia.
Qed.

Lemma related_S f A B st :
  related ir (S f) A B st =
  match CachedResults st !! key_of A B with
  | Some r => Some (r, st)
  | None =>
      match relatedCheck ir (related ir f) (key_of A B).1 (key_of A B).2
              (pending st (key_of A B)) with
      | None => None
      | Some (r, st2) => Some (r, finish st2 (key_of A B) r)
      end
  end.
Proof. reflexivity. Qed.

Lemma related_swap f A B st : related ir f A B st = related ir f B A st.
Proof. destruct f; [reflexivity|]. rewrite !related_S, key_of_comm. reflexivity. Qed.

Lemma related_key f A B st :
  related ir f A B st = related ir f (key_of A B).1 (key_of A B).2 st.
Proof. destruct f; [reflexivity|]. rewrite !related_S, key_of_idem. reflexivity. Qed.

Abbreviation refuted_calls C cs := (Forall (fun c => refuted ir C (key_of c.1 c.2)) cs).

Lemma refutedn_S C n k : refutedn ir C n k → refutedn ir C (S n) k.
Proof.
  revert k. induction n as [|n IH]; intros k H; [destruct H|].
  destruct H as [H|[H1 H2]]; [left; exact H|right; split; [exact H1|]].
  destruct (node_of ir k.1 k.2); auto.
  destruct H2 as [? H2]; split; [assumption|].
  eapply Forall_impl; [exact H2|]. intros c; apply IH.
Qed.

Lemma refutedn_le C n m k : n ≤ m → refutedn ir C n k → refutedn ir C m k.
Proof. induction 1; auto using refutedn_S. Qed.

Lemma refuted_calls_uniform C (cs : list (nat * nat)) :
  refuted_calls C cs → ∃ n, Forall (fun c => refutedn ir C n (key_of c.1 c.2)) cs.
Proof.
  induction 1 as [|c cs [n Hn] _ [m Hm]]; [exists 0; constructor|].
  exists (Nat.max n m). constructor.
  - apply (refutedn_le _ n); [lia|exact Hn].
  - eapply Forall_impl; [exact Hm|]. intros c' Hc'. apply (refutedn_le _ m); [lia|exact Hc'].
Qed.

Lemma refuted_or C k cs :
  C !! k = None → node_of ir k.1 k.2 = NOr cs false → refuted_calls C cs → refuted ir C k.
Proof.
  intros H1 H2 H3. destruct (refuted_calls_uniform _ _ H3) as [n Hn].
  exists (S n). right. split; [done|]. rewrite H2. split; done.
Qed.

Lemma refuted_cached C k v : C !! k = Some v → refuted ir C k ↔ v = false.
Proof.
  intros H; split.
  - intros [[|n] Hn]; [done|]. destruct Hn as [Hn|[Hn _]]; congruence.
  - intros ->. exists 1. left. done.
Qed.

Lemma refuted_leaf C k b :
  C !! k = None → node_of ir k.1 k.2 = NLeaf b → refuted ir C k ↔ b = false.
Proof.
  intros H1 H2; split.
  - intros [[|n] Hn]; [done|]. destruct Hn as [Hn|[_ Hn]]; [congruence|].
    rewrite H2 in Hn. done.
  - intros ->. exists 1. right. rewrite H2. done.
Qed.

Lemma refuted_or_inv C k cs tf :
  C !! k = None → node_of ir k.1 k.2 = NOr cs tf → refuted ir C k →
  tf = false ∧ refuted_calls C cs.
Proof.
  intros H1 H2 [[|n] Hn]; [done|]. destruct Hn as [Hn|[_ Hn]]; [congruence|].
  rewrite H2 in Hn. destruct Hn as [? Hn]. split; [done|].
  eapply Forall_impl; [exact Hn|]. intros c Hc; exists n; exact Hc.
Qed.

Lemma refuted_fail C k : C !! k = None → node_of ir k.1 k.2 = NFail → ¬ refuted ir C k.
Proof.
  intros H1 H2 [[|n] Hn]; [done|]. destruct Hn as [Hn|[_ Hn]]; [congruence|].
  rewrite H2 in Hn. done.
Qed.

(** A derivation in a cache with a pending entry for [k] never goes
    through [k]. *)
Lemma refuted_pending_drop C k x : refuted ir (<[k:=true]> C) x → refuted ir C x.
Proof.
  intros [n Hn]. exists n. revert x Hn.
  induction n as [|n IH]; intros x Hn; [done|].
  destruct (decide (x = k)) as [->|Hne].
  - destruct Hn as [Hn|[Hn _]]; rewrite lookup_insert_eq in Hn; congruence.
  - destruct Hn as [Hn|[Hn1 Hn2]].
    + left. rewrite lookup_insert_ne in Hn by congruence. exact Hn.
    + right. rewrite lookup_insert_ne in Hn1 by congruence. split; [exact Hn1|].
      destruct (node_of ir x.1 x.2); try exact Hn2.
      destruct Hn2 as [? Hn2]; split; [assumption|].
      eapply Forall_impl; [exact Hn2|]. intros c; apply IH.
Qed.

Lemma Forall_or_const {A} (P : A → Prop) (Q : Prop) (l : list A) :
  Forall (fun c => P c ∨ Q) l → Forall P l ∨ Q.
Proof.
  induction 1 as [|c l Hc _ IH]; [left; constructor|].
  destruct Hc as [Hc|Hq]; [|right; exact Hq].
  destruct IH as [IH|Hq]; [left; constructor; assumption|right; exact Hq].
Qed.

(** A derivation either avoids [k] or contains a smaller one for [k]. *)
Lemma refutedn_avoid_step C k m x :
  C !! k = None → refutedn ir C m x →
  refuted ir (<[k:=true]> C) x ∨ ∃ m', m' ≤ m ∧ refutedn ir C m' k.
Proof.
  intros Hk. revert x. induction m as [|m IH]; intros x Hx; [done|].
  destruct (decide (x = k)) as [->|Hne]; [right; exists (S m); split; [lia|done]|].
  destruct Hx as [Hx|[Hx1 Hx2]].
  - left. exists 1. left. rewrite lookup_insert_ne by congruence. exact Hx.
  - destruct (node_of ir x.1 x.2) as [b|cs tf|] eqn:Hn; try done.
    + left. exists 1. right. rewrite lookup_insert_ne by congruence.
      rewrite Hn. split; assumption.
    + destruct Hx2 as [Htf Hcs].
      assert (Forall (fun c => refuted ir (<[k:=true]> C) (key_of c.1 c.2)
                               ∨ ∃ m', m' ≤ m ∧ refutedn ir C m' k) cs) as H.
      { eapply Forall_impl; [exact Hcs|]. intros c Hc. apply IH. exact Hc. }
      apply Forall_or_const in H as [H|[m' [Hle Hm']]].
      * left. subst tf. apply refuted_or with cs; [|exact Hn|exact H].
        rewrite lookup_insert_ne by congruence. exact Hx1.
      * right. exists m'. split; [lia|exact Hm'].
Qed.

(** If [k] is refuted, its calls are refuted with [k] pending. *)
Lemma refuted_pending_children C k cs tf :
  C !! k = None → node_of ir k.1 k.2 = NOr cs tf → refuted ir C k →
  refuted_calls (<[k:=true]> C) cs.
Proof.
  intros Hk Hn [n Hr]. revert Hr.
  induction n as [n IH] using lt_wf_ind. intros Hr.
  destruct n as [|n]; [done|].
  destruct Hr as [Hr|[_ Hr]]; [congruence|]. rewrite Hn in Hr. destruct Hr as [_ Hcs].
  apply Forall_forall. intros c Hc. rewrite Forall_forall in Hcs.
  destruct (refutedn_avoid_step C k n _ Hk (Hcs c Hc)) as [H|[m' [Hle Hm']]]; [exact H|].
  specialize (IH m' ltac:(lia) Hm'). rewrite Forall_forall in IH. apply IH, Hc.
Qed.

(** Adding refuted keys as cached [false] changes no answer. *)
Lemma refuted_extend C C' :
  C ⊆ C' → extends_false ir C C' → ∀ x, refuted ir C' x ↔ refuted ir C x.
Proof.
  intros Hsub Hnew x. split.
  - intros [n Hn]. revert x Hn. induction n as [|n IH]; intros x Hn; [done|].
    destruct Hn as [Hn|[Hn1 Hn2]].
    + destruct (C !! x) as [v|] eqn:Hc.
      * exists 1. left. rewrite (lookup_weaken C C' x v Hc Hsub) in Hn.
        rewrite Hc. exact Hn.
      * exact (proj2 (Hnew x false Hc Hn)).
    + assert (C !! x = None) as Hc by (eapply lookup_weaken_None; eauto).
      destruct (node_of ir x.1 x.2) as [b|cs tf|] eqn:Hnd; try done.
      * exists 1. right. rewrite Hnd. split; assumption.
      * destruct Hn2 as [-> Hcs]. apply refuted_or with cs; [exact Hc|exact Hnd|].
        eapply Forall_impl; [exact Hcs|]. intros c Hc'. apply IH. exact Hc'.
  - intros [n Hn]. exists n. revert x Hn. induction n as [|n IH]; intros x Hn; [done|].
    destruct Hn as [Hn|[Hn1 Hn2]].
    + left. eapply lookup_weaken; eauto.
    + destruct (C' !! x) as [v|] eqn:Hc'.
      * left. destruct (Hnew x v Hn1 Hc') as [-> _]. exact Hc'.
      * right. split; [exact Hc'|]. destruct (node_of ir x.1 x.2); try exact Hn2.
        destruct Hn2 as [? Hcs]; split; [assumption|].
        eapply Forall_impl; [exact Hcs|]. intros c; apply IH.
Qed.

Lemma run_or_spec (rel : nat → nat → M bool)
  (Hrel : ∀ A B st r st', rel A B st = Some (r, st') →
      query_ok ir (CachedResults st) (CachedResults st') r ∧
      (r = false ↔ refuted ir (CachedResults st) (key_of A B)))
  cs tf st r st' :
  run_or rel cs tf st = Some (r, st') →
  query_ok ir (CachedResults st) (CachedResults st') r ∧
  (r = false ↔ tf = false ∧ refuted_calls (CachedResults st) cs).
Proof.
  revert st. induction cs as [|[x y] cs IH]; intros st.
  - simpl. destruct tf; [done|]. intros [= <- <-].
    split; [split; [done|intros _ ? ? H1 H2; congruence]|]. split; auto.
  - simpl. unfold orM, bind. destruct (rel x y st) as [[r1 st1]|] eqn:E; [|done].
    destruct (Hrel _ _ _ _ _ E) as [[Hs1 Hf1] Hr1].
    destruct r1.
    + intros [= <- <-]. split; [split; [exact Hs1|done]|]. split; [done|].
      intros [_ Hcs]. inversion Hcs; subst. apply Hr1. assumption.
    + intros E2. destruct (IH _ E2) as [[Hs2 Hf2] Hr2].
      pose proof (refuted_extend _ _ Hs1 (Hf1 eq_refl)) as Hext.
      split; [split|].
      * etrans; eauto.
      * intros Hr x0 v H0 H0'. destruct (CachedResults st1 !! x0) as [v1|] eqn:E1.
        -- pose proof (lookup_weaken _ _ _ _ E1 Hs2) as Hw. rewrite H0' in Hw.
           injection Hw as ->. exact (Hf1 eq_refl x0 v1 H0 E1).
        -- destruct (Hf2 Hr x0 v E1 H0') as [Hv Href]. split; [exact Hv|].
           apply Hext. exact Href.
      * rewrite Hr2. split.
        -- intros [Htf Hcs]. split; [exact Htf|]. constructor; [apply Hr1; reflexivity|].
           eapply Forall_impl; [exact Hcs|]. intros c Hc. apply Hext. exact Hc.
        -- intros [Htf Hcs]. inversion Hcs as [|? ? Hc Hcs']; subst.
           split; [reflexivity|]. eapply Forall_impl; [exact Hcs'|].
           intros c Hc'. apply Hext. exact Hc'.
Qed.

Lemma related_spec f : ∀ A B st r st',
  related ir f A B st = Some (r, st') →
  query_ok ir (CachedResults st) (CachedResults st') r ∧
  CachedResults st' !! key_of A B = Some r ∧
  (r = false ↔ refuted ir (CachedResults st) (key_of A B)).
Proof.
  induction f as [|f IH]; intros A B st r st' H; [done|].
  rewrite related_S in H. set (k := key_of A B) in *.
  destruct (CachedResults st !! k) as [v|] eqn:Hk.
  - injection H as <- <-. split; [split; [done|intros _ x v' H1 H2; congruence]|].
    split; [exact Hk|]. rewrite (refuted_cached _ _ _ Hk). tauto.
  - rewrite relatedCheck_node in H.
    destruct (node_of ir k.1 k.2) as [b|cs tf|] eqn:Hn; simpl in H.
    + injection H as <- <-. cbn [finish pending CachedResults].
      rewrite insert_insert_eq. split; [split|].
      * apply insert_subseteq. exact Hk.
      * intros Hb x v H1 H2. destruct (decide (x = k)) as [->|Hne].
        -- rewrite lookup_insert_eq in H2. injection H2 as <-. split; [exact Hb|].
           apply (refuted_leaf _ _ _ Hk Hn). exact Hb.
        -- rewrite lookup_insert_ne in H2 by congruence. congruence.
      * split; [apply lookup_insert_eq|]. rewrite (refuted_leaf _ _ _ Hk Hn). tauto.
    + destruct (run_or (related ir f) cs tf (pending st k)) as [[r2 st2]|] eqn:E;
        [|done].
      injection H as <- <-.
      assert (Hrel : ∀ A B st r st', related ir f A B st = Some (r, st') →
                query_ok ir (CachedResults st) (CachedResults st') r ∧
                (r = false ↔ refuted ir (CachedResults st) (key_of A B))).
      { intros A' B' s r' s' Hs. destruct (IH _ _ _ _ _ Hs) as (? & _ & ?). split; assumption. }
      destruct (run_or_spec _ Hrel _ _ _ _ _ E) as [[Hs Hf] Hr].
      cbn [pending CachedResults] in Hs, Hf, Hr.
      assert (Hkey : r2 = false ↔ refuted ir (CachedResults st) k).
      { rewrite Hr. split.
        - intros [-> Hcs]. apply refuted_or with cs; [exact Hk|exact Hn|].
          eapply Forall_impl; [exact Hcs|]. intros c; apply refuted_pending_drop.
        - intros Href. split.
          + exact (proj1 (refuted_or_inv _ _ _ _ Hk Hn Href)).
          + exact (refuted_pending_children _ _ _ _ Hk Hn Href). }
      cbn [finish CachedResults]. split; [split|].
      * apply map_subseteq_spec. intros x v Hx.
        destruct (decide (x = k)) as [->|Hne]; [congruence|].
        rewrite lookup_insert_ne by congruence. eapply lookup_weaken; [|exact Hs].
        rewrite lookup_insert_ne by congruence. exact Hx.
      * intros Hr2 x v H1 H2. destruct (decide (x = k)) as [->|Hne].
        -- rewrite lookup_insert_eq in H2. injection H2 as <-. split; [exact Hr2|].
           apply Hkey. exact Hr2.
        -- rewrite lookup_insert_ne in H2 by congruence.
           assert (<[k:=true]> (CachedResults st) !! x = None) as Hx
             by (rewrite lookup_insert_ne by congruence; exact H1).
           destruct (Hf Hr2 x v Hx H2) as [Hv Href]. split; [exact Hv|].
           exact (refuted_pending_drop _ _ _ Href).
      * split; [apply lookup_insert_eq|exact Hkey].
    + done.
Qed.

End Semantics_facts.

(** *** Lemmas on the escape detector *)

Section Escape_facts.

Variable ir : IR.

Lemma scan_escaped P us wl vis :
  scan_uses ir P us wl vis = Escaped → ∃ u, u ∈ us ∧ escaping_use ir P u.
Proof.
  revert wl vis. induction us as [|[Ur opno] us IH]; intros wl vis H; [done|].
  simpl in H.
  destruct (isa_Store (kind ir Ur)) eqn:Es.
  - destruct (opno =? 0) eqn:Eo.
    + exists (Ur, opno). split; [left|]. left. split; [exact Es|]. apply Nat.eqb_eq, Eo.
    + destruct (IH _ _ H) as [u [Hu He]]. exists u. split; [right; exact Hu|exact He].
  - destruct (isa_Call (kind ir Ur)) eqn:Ec.
    + destruct (IH _ _ H) as [u [Hu He]]. exists u. split; [right; exact Hu|exact He].
    + destruct (isa_PtrToInt (kind ir P)) eqn:Ep.
      * exists (Ur, opno). split; [left|]. right. auto.
      * destruct (bool_decide (Ur ∈ vis));
          destruct (IH _ _ H) as [u [Hu He]]; exists u; split; [right; exact Hu|exact He|right; exact Hu|exact He].
Qed.

Lemma scan_scanned P us wl vis wl' vis' :
  scan_uses ir P us wl vis = Scanned wl' vis' →
  (∀ u, u ∈ us → ¬ escaping_use ir P u) ∧
  (∀ x, fwd_in ir us P x → x ∈ vis') ∧
  (∃ new, wl' = new ++ wl ∧ vis' = new ++ vis ∧ NoDup new ∧
          (∀ x, x ∈ new → (x ∉ vis) ∧ fwd_in ir us P x)).
Proof.
  revert wl vis. induction us as [|[Ur opno] us IH]; intros wl vis H.
  - injection H as <- <-. split; [intros u Hu; inversion Hu|].
    split; [intros x [o [Ho _]]; inversion Ho|].
    exists []. split; [done|]. split; [done|]. split; [constructor|]. intros x Hx; inversion Hx.
  - simpl in H.
    assert (Hfwd_cons : ∀ x, fwd_in ir us P x → fwd_in ir ((Ur, opno) :: us) P x).
    { intros x [o [Ho Hrest]]. exists o. split; [right; exact Ho|exact Hrest]. }
    destruct (isa_Store (kind ir Ur)) eqn:Es.
    + destruct (opno =? 0) eqn:Eo; [done|].
      destruct (IH _ _ H) as (Hne & Hin & new & -> & -> & Hnd & Hnew).
      split; [|split].
      * intros u Hu. apply elem_of_cons in Hu as [->|Hu]; [|apply Hne, Hu].
        intros [[_ E]|[E _]]; [simpl in E; subst; done|simpl in E; congruence].
      * intros x [o [Ho Hrest]]. apply elem_of_cons in Ho as [Ho|Ho].
        -- injection Ho as -> ->. destruct Hrest as [Hs _]. congruence.
        -- apply Hin. exists o. split; [exact Ho|exact Hrest].
      * exists new. split; [done|]. split; [done|]. split; [exact Hnd|].
        intros x Hx. destruct (Hnew x Hx) as [? ?]. split; auto.
    + destruct (isa_Call (kind ir Ur)) eqn:Ec.
      * destruct (IH _ _ H) as (Hne & Hin & new & -> & -> & Hnd & Hnew).
        split; [|split].
        -- intros u Hu. apply elem_of_cons in Hu as [->|Hu]; [|apply Hne, Hu].
           intros [[E _]|[_ [E _]]]; simpl in E; congruence.
        -- intros x [o [Ho Hrest]]. apply elem_of_cons in Ho as [Ho|Ho].
           ++ injection Ho as -> ->. destruct Hrest as [_ [Hc _]]. congruence.
           ++ apply Hin. exists o. split; [exact Ho|exact Hrest].
        -- exists new. split; [done|]. split; [done|]. split; [exact Hnd|].
           intros x Hx. destruct (Hnew x Hx) as [? ?]. split; auto.
      * destruct (isa_PtrToInt (kind ir P)) eqn:Ep; [done|].
        assert (Hu0 : ¬ escaping_use ir P (Ur, opno)).
        { intros [[E _]|[_ [_ E]]]; simpl in E; congruence. }
        destruct (bool_decide (Ur ∈ vis)) eqn:Ev.
        -- apply bool_decide_eq_true in Ev.
           destruct (IH _ _ H) as (Hne & Hin & new & -> & -> & Hnd & Hnew).
           split; [|split].
           ++ intros u Hu. apply elem_of_cons in Hu as [->|Hu]; [exact Hu0|apply Hne, Hu].
           ++ intros x [o [Ho Hrest]]. apply elem_of_cons in Ho as [Ho|Ho].
              ** injection Ho as -> ->. apply elem_of_app. right. exact Ev.
              ** apply Hin. exists o. auto.
           ++ exists new. split; [done|]. split; [done|]. split; [exact Hnd|].
              intros x Hx. destruct (Hnew x Hx) as [? ?]. split; auto.
        -- apply bool_decide_eq_false in Ev.
           destruct (IH _ _ H) as (Hne & Hin & new & -> & -> & Hnd & Hnew).
           split; [|split].
           ++ intros u Hu. apply elem_of_cons in Hu as [->|Hu]; [exact Hu0|apply Hne, Hu].
           ++ intros x [o [Ho Hrest]]. apply elem_of_cons in Ho as [Ho|Ho].
              ** injection Ho as -> ->. apply elem_of_app. right. left.
              ** apply Hin. exists o. auto.
           ++ exists (new ++ [Ur]). rewrite <- !app_assoc. split; [done|]. split; [done|].
              split.
              ** apply NoDup_app. split; [exact Hnd|]. split; [|apply NoDup_singleton].
                 intros x Hx Hx'. apply list_elem_of_singleton in Hx' as ->.
                 destruct (Hnew _ Hx) as [Hnv _]. apply Hnv. left.
              ** intros x Hx. apply elem_of_app in Hx as [Hx|Hx].
                 --- destruct (Hnew x Hx) as [Hnv Hf]. split; [|auto].
                     intros Hv. apply Hnv. right. exact Hv.
                 --- apply list_elem_of_singleton in Hx as ->. split; [exact Ev|].
                     exists opno. split; [left|auto].
Qed.

Lemma isStored_loop_true V f wl vis :
  isStored_loop ir f wl vis = Some true → (∀ x, x ∈ wl → traversed ir V x) →
  ∃ P u, traversed ir V P ∧ u ∈ uses ir P ∧ escaping_use ir P u.
Proof.
  revert wl vis. induction f as [|f IH]; intros wl vis H Hwl; [done|].
  simpl in H. destruct wl as [|P wl]; [done|].
  destruct (scan_uses ir P (uses ir P) wl vis) as [|wl' vis'] eqn:E.
  - destruct (scan_escaped _ _ _ _ E) as [u [Hu He]].
    exists P, u. split; [apply Hwl; left|]. split; assumption.
  - destruct (scan_scanned _ _ _ _ _ _ E) as (_ & _ & new & -> & -> & _ & Hnew).
    destruct (new ++ wl) as [|y ys] eqn:Ey; [done|].
    apply (IH _ _ H). rewrite <- Ey. intros x Hx. apply elem_of_app in Hx as [Hx|Hx].
    + apply trav_step with P; [apply Hwl; left|]. apply (Hnew x Hx).
    + apply Hwl. right. exact Hx.
Qed.

Lemma scanned_inv_closed V vis :
  scanned_inv ir V [] vis → ∀ P, traversed ir V P → P ∈ vis.
Proof.
  intros (HV & _ & _ & Hdone) P HP. induction HP as [|P Ur _ IH Hf]; [exact HV|].
  apply (Hdone P IH); [intros Hx; inversion Hx|exact Hf].
Qed.

Lemma isStored_loop_false V f wl vis :
  scanned_inv ir V wl vis → isStored_loop ir f wl vis = Some false →
  ∀ P u, traversed ir V P → u ∈ uses ir P → ¬ escaping_use ir P u.
Proof.
  assert (Hend : ∀ vis, scanned_inv ir V [] vis →
            ∀ P u, traversed ir V P → u ∈ uses ir P → ¬ escaping_use ir P u).
  { intros vis0 Hinv P u HP Hu. pose proof (scanned_inv_closed _ _ Hinv P HP) as Hv.
    destruct Hinv as (_ & _ & _ & Hdone).
    apply (Hdone P Hv); [intros Hx; inversion Hx|exact Hu]. }
  revert wl vis. induction f as [|f IH]; intros wl vis Hinv H; [done|].
  simpl in H. destruct wl as [|P wl]; [exact (Hend _ Hinv)|].
  destruct (scan_uses ir P (uses ir P) wl vis) as [|wl' vis'] eqn:E; [done|].
  destruct (scan_scanned _ _ _ _ _ _ E) as (Hne & Hin & new & -> & -> & Hnd & Hnew).
  destruct Hinv as (HV & Hwl & HnoD & Hdone).
  apply NoDup_cons in HnoD as [HPwl HnoD].
  assert (Hinv' : scanned_inv ir V (new ++ wl) (new ++ vis)).
  { split; [apply elem_of_app; right; exact HV|]. split; [|split].
    - intros x Hx. apply elem_of_app in Hx as [Hx|Hx].
      + apply elem_of_app. left. exact Hx.
      + apply elem_of_app. right. apply Hwl. right. exact Hx.
    - apply NoDup_app. split; [exact Hnd|]. split; [|exact HnoD].
      intros x Hx Hx'. apply (proj1 (Hnew x Hx)). apply Hwl. right. exact Hx'.
    - intros x Hx Hnx. apply elem_of_app in Hx as [Hx|Hx].
      + exfalso. apply Hnx. apply elem_of_app. left. exact Hx.
      + destruct (decide (x = P)) as [->|HxP].
        * split; [exact Hne|]. intros y Hy. apply Hin. exact Hy.
        * assert (x ∉ P :: wl) as Hx'.
          { intros Hc. apply elem_of_cons in Hc as [Hc|Hc]; [done|].
            apply Hnx. apply elem_of_app. right. exact Hc. }
          destruct (Hdone x Hx Hx') as [Hesc Hfw]. split; [exact Hesc|].
          intros y Hy. apply elem_of_app. right. apply Hfw. exact Hy. }
  destruct (new ++ wl) as [|y ys] eqn:Ey; [exact (Hend _ Hinv')|].
  exact (IH _ _ Hinv' H).
Qed.

(** The answer of the escape detector, when it terminates: [true] exactly
    when a traversed value has an escaping use. *)
Lemma isStoredObjCPointer_spec V b :
  isStoredObjCPointer ir V = Some b →
  (b = true ↔ ∃ P u, traversed ir V P ∧ u ∈ uses ir P ∧ escaping_use ir P u).
Proof.
  intros H. split.
  - intros ->. apply (isStored_loop_true V _ _ _ H).
    intros x Hx. apply list_elem_of_singleton in Hx as ->. constructor.
  - intros (P & u & HP & Hu & He). destruct b; [reflexivity|].
    exfalso. refine (isStored_loop_false V _ [V] [V] _ H P u HP Hu He).
    split; [left|]. split; [intros x Hx; exact Hx|]. split; [apply NoDup_singleton|].
    intros x Hx Hnx. exfalso. exact (Hnx Hx).
Qed.

Lemma NoDup_bounded_length (l : list nat) N :
  NoDup l → (∀ x, x ∈ l → x < N) → length l ≤ N.
Proof.
  intros Hnd Hb. rewrite <- (length_seq N 0).
  apply NoDup_incl_length; [apply NoDup_ListNoDup; exact Hnd|].
  intros x Hx. apply in_seq. apply list_elem_of_In in Hx. specialize (Hb x Hx). lia.
Qed.

Lemma isStored_loop_total f wl vis :
  uses_closed ir → NoDup vis → (∀ x, x ∈ vis → x < nvalues ir) → (∀ x, x ∈ wl → x ∈ vis) →
  nvalues ir + length wl - length vis < f →
  ∃ b, isStored_loop ir f wl vis = Some b.
Proof.
  intros Hcl. revert wl vis. induction f as [|f IH]; intros wl vis Hnd Hb Hwl Hf; [lia|].
  pose proof (NoDup_bounded_length _ _ Hnd Hb) as Hlen.
  simpl. destruct wl as [|P wl]; [eauto|].
  destruct (scan_uses ir P (uses ir P) wl vis) as [|wl' vis'] eqn:E; [eauto|].
  destruct (scan_scanned _ _ _ _ _ _ E) as (_ & _ & new & -> & -> & Hnd' & Hnew).
  destruct (new ++ wl) as [|y ys] eqn:Ey; [eauto|]. rewrite <- Ey.
  assert (HP : P < nvalues ir) by (apply Hb, Hwl; left).
  apply IH.
  - apply NoDup_app. split; [exact Hnd'|]. split; [|exact Hnd].
    intros x Hx. apply (Hnew x Hx).
  - intros x Hx. apply elem_of_app in Hx as [Hx|Hx]; [|apply Hb, Hx].
    destruct (proj2 (Hnew x Hx)) as [o [Ho _]]. exact (Hcl P (x, o) HP Ho).
  - intros x Hx. apply elem_of_app in Hx as [Hx|Hx].
    + apply elem_of_app. left. exact Hx.
    + apply elem_of_app. right. apply Hwl. right. exact Hx.
  - rewrite !length_app. simpl in Hf. lia.
Qed.

Lemma isStoredObjCPointer_total V :
  uses_closed ir → V < nvalues ir → ∃ b, isStoredObjCPointer ir V = Some b.
Proof.
  intros Hcl HV. apply isStored_loop_total; [exact Hcl|apply NoDup_singleton| | |].
  - intros x Hx. apply list_elem_of_singleton in Hx as ->. exact HV.
  - intros x Hx. exact Hx.
  - simpl. lia.
Qed.

End Escape_facts.

(** *** Lemmas on termination *)

Section Termination_facts.

Variable ir : IR.

Lemma filter_length_mono (f g : key → bool) (l : list key) :
  (∀ x, g x = true → f x = true) → length (List.filter g l) ≤ length (List.filter f l).
Proof.
  intros H. induction l as [|x l IH]; [simpl; lia|]. simpl.
  destruct (g x) eqn:Eg; [rewrite (H x Eg); simpl; lia|].
  destruct (f x); simpl; lia.
Qed.

Lemma filter_length_strict (f g : key → bool) (l : list key) k :
  (∀ x, g x = true → f x = true) → In k l → f k = true → g k = false →
  length (List.filter g l) < length (List.filter f l).
Proof.
  intros H. induction l as [|x l IH]; intros Hin Hf Hg; [destruct Hin|].
  destruct Hin as [->|Hin].
  - simpl. rewrite Hf, Hg. simpl. pose proof (filter_length_mono f g l H). lia.
  - simpl. specialize (IH Hin Hf Hg).
    destruct (g x) eqn:Eg; [rewrite (H x Eg); simpl; lia|].
    destruct (f x); simpl; lia.
Qed.

Lemma measure_mono C C' : C ⊆ C' → measure ir C' ≤ measure ir C.
Proof.
  intros Hs. apply filter_length_mono. unfold uncached. intros x.
  destruct (C !! x) eqn:E; [|done]. rewrite (lookup_weaken _ _ _ _ E Hs). done.
Qed.

Lemma key_of_in A B : A < nvalues ir → B < nvalues ir → In (key_of A B) (all_keys ir).
Proof.
  intros HA HB. unfold key_of, all_keys.
  destruct (B <? A); apply in_prod; apply in_seq; lia.
Qed.

Lemma measure_pending C k :
  In k (all_keys ir) → C !! k = None → measure ir (<[k:=true]> C) < measure ir C.
Proof.
  intros Hin Hk. apply (filter_length_strict _ _ _ k); [| exact Hin | | ].
  - unfold uncached. intros x. destruct (decide (x = k)) as [->|Hne].
    + rewrite lookup_insert_eq. done.
    + rewrite lookup_insert_ne by congruence. done.
  - unfold uncached. rewrite Hk. done.
  - unfold uncached. rewrite lookup_insert_eq. done.
Qed.

Lemma getIncomingValueForBlock_in inc bb w :
  getIncomingValueForBlock inc bb = Some w → (w, bb) ∈ inc.
Proof.
  induction inc as [|[v blk] inc IH]; simpl; [done|].
  destruct (blk =? bb) eqn:E.
  - intros [= ->]. apply Nat.eqb_eq in E as ->. left.
  - intros H. right. apply IH, H.
Qed.

Lemma sameblock_calls_bounded incA incB :
  (∀ x, x ∈ incA → ∃ w, getIncomingValueForBlock incB x.2 = Some w) →
  (sameblock_calls incA incB).2 = false ∧
  ∀ c, c ∈ (sameblock_calls incA incB).1 →
    (∃ blk, (c.1, blk) ∈ incA) ∧ (∃ blk, (c.2, blk) ∈ incB).
Proof.
  induction incA as [|[v blk] incA IH]; intros H.
  - split; [done|]. intros c Hc. inversion Hc.
  - simpl. destruct (H (v, blk) ltac:(left)) as [w Hw]. simpl in Hw. rewrite Hw.
    destruct IH as [IH1 IH2].
    { intros x Hx. apply H. right. exact Hx. }
    split; [exact IH1|]. intros c Hc. apply elem_of_cons in Hc as [->|Hc].
    + split; [exists blk; left|exists blk; apply getIncomingValueForBlock_in, Hw].
    + destruct (IH2 c Hc) as [[b1 H1] H2]. split; [exists b1; right; exact H1|exact H2].
Qed.

Lemma unique_calls_bounded incA B seen :
  ∀ c, c ∈ unique_calls incA B seen → (∃ blk, (c.1, blk) ∈ incA) ∧ c.2 = B.
Proof.
  revert seen. induction incA as [|[v blk] incA IH]; intros seen c Hc; [inversion Hc|].
  simpl in Hc. destruct (bool_decide (v ∈ seen)).
  - destruct (IH _ c Hc) as [[b1 H1] H2]. split; [exists b1; right; exact H1|exact H2].
  - apply elem_of_cons in Hc as [->|Hc].
    + split; [exists blk; left|reflexivity].
    + destruct (IH _ c Hc) as [[b1 H1] H2]. split; [exists b1; right; exact H1|exact H2].
Qed.

Lemma phi_node_bounded pa incA B A :
  ir_closed ir → phi_blocks_wf ir → A < nvalues ir → B < nvalues ir →
  kind ir A = Phi pa incA →
  ∃ cs, phi_node ir pa incA B = NOr cs false ∧ calls_bounded ir cs.
Proof.
  intros [Hu Hcl] Hwf HA HB HkA. unfold phi_node.
  destruct (Hcl A HA) as (_ & HphiA & _).
  assert (Huniq : ∃ cs, NOr (unique_calls incA B []) false = NOr cs false ∧ calls_bounded ir cs).
  { eexists. split; [reflexivity|]. intros c Hc.
    destruct (unique_calls_bounded _ _ _ c Hc) as [[blk Hin] ->].
    split; [exact (HphiA _ _ HkA _ Hin)|exact HB]. }
  destruct (kind ir B) as [| | | |pb incB| | |] eqn:HkB; try exact Huniq.
  destruct (pb =? pa) eqn:Ep; [|exact Huniq].
  apply Nat.eqb_eq in Ep as ->.
  destruct (sameblock_calls_bounded incA incB) as [Htf Hcs].
  { intros x Hx. exact (Hwf _ _ _ _ _ HkA HkB x Hx). }
  rewrite Htf. eexists. split; [reflexivity|]. intros c Hc.
  destruct (Hcs c Hc) as [[b1 H1] [b2 H2]].
  destruct (Hcl B HB) as (_ & HphiB & _).
  split; [exact (HphiA _ _ HkA _ H1)|exact (HphiB _ _ HkB _ H2)].
Qed.

Lemma select_node_bounded c t f B A :
  ir_closed ir → A < nvalues ir → B < nvalues ir → kind ir A = Select c t f →
  ∃ cs, select_node ir c t f B = NOr cs false ∧ calls_bounded ir cs.
Proof.
  intros [Hu Hcl] HA HB HkA. unfold select_node.
  destruct (Hcl A HA) as (_ & _ & Hsel). destruct (Hsel _ _ _ HkA) as [Ht Hf].
  assert (Hgen : ∃ cs, NOr [(t, B); (f, B)] false = NOr cs false ∧ calls_bounded ir cs).
  { eexists. split; [reflexivity|]. intros x Hx.
    repeat (apply elem_of_cons in Hx as [->|Hx]; [simpl; lia|]). inversion Hx. }
  destruct (kind ir B) as [| | | | |c2 t2 f2| |] eqn:HkB; try exact Hgen.
  destruct (c =? c2); [|exact Hgen].
  destruct (Hcl B HB) as (_ & _ & HselB). destruct (HselB _ _ _ HkB) as [Ht2 Hf2].
  eexists. split; [reflexivity|]. intros x Hx.
  repeat (apply elem_of_cons in Hx as [->|Hx]; [simpl; lia|]). inversion Hx.
Qed.

Lemma node_of_total A0 B0 :
  ir_closed ir → phi_blocks_wf ir → A0 < nvalues ir → B0 < nvalues ir →
  (∃ b, node_of ir A0 B0 = NLeaf b) ∨
  (∃ cs, node_of ir A0 B0 = NOr cs false ∧ calls_bounded ir cs).
Proof.
  intros Hcl Hwf HA0 HB0.
  pose proof Hcl as [Hu Hcl'].
  destruct (Hcl' A0 HA0) as [HA _]. destruct (Hcl' B0 HB0) as [HB _].
  set (A := GetUnderlyingObjCPtr ir A0) in *. set (B := GetUnderlyingObjCPtr ir B0) in *.
  assert (Hleaf : ∀ V, V < nvalues ir → ∃ b, leaf_of (isStoredObjCPointer ir V) = NLeaf b).
  { intros V HV. destruct (isStoredObjCPointer_total ir V Hu HV) as [b Hb].
    rewrite Hb. eexists. reflexivity. }
  assert (Hdec : (∃ b, decompose_node ir A B = NLeaf b) ∨
                 (∃ cs, decompose_node ir A B = NOr cs false ∧ calls_bounded ir cs)).
  { unfold decompose_node.
    destruct (kind ir A) as [| | | |pa incA|c t f| |] eqn:HkA;
      [..|right; exact (phi_node_bounded _ _ _ A Hcl Hwf HA HB HkA)|idtac|idtac|idtac];
    (destruct (kind ir B) as [| | | |pb incB|c' t' f'| |] eqn:HkB;
      [..|right; exact (phi_node_bounded _ _ _ B Hcl Hwf HB HA HkB)|idtac|idtac|idtac]);
    first
      [ right; exact (select_node_bounded _ _ _ _ A Hcl HA HB HkA)
      | right; exact (select_node_bounded _ _ _ _ B Hcl HB HA HkB)
      | left; eexists; reflexivity ]. }
  unfold node_of. fold A B.
  destruct (A =? B); [left; eexists; reflexivity|].
  destruct (alias ir A B); try (left; eexists; reflexivity).
  destruct (IsObjCIdentifiedObject ir A), (isa_Load (kind ir B)),
    (IsObjCIdentifiedObject ir B), (isa_Load (kind ir A));
    first [left; apply Hleaf; assumption | exact Hdec | left; eexists; reflexivity].
Qed.

Lemma run_or_total (rel : nat → nat → M bool) bound
  (Hrel : ∀ x y st, x < nvalues ir → y < nvalues ir → measure ir (CachedResults st) < bound →
     ∃ r st', rel x y st = Some (r, st') ∧ CachedResults st ⊆ CachedResults st') :
  ∀ cs st, calls_bounded ir cs → measure ir (CachedResults st) < bound →
  ∃ r st', run_or rel cs false st = Some (r, st').
Proof.
  induction cs as [|[x y] cs IH]; intros st Hcs Hm; [eexists _, _; reflexivity|].
  destruct (Hcs (x, y) ltac:(left)) as [Hx Hy].
  destruct (Hrel x y st Hx Hy Hm) as (r1 & st1 & E & Hs).
  simpl. unfold orM, bind. rewrite E. destruct r1; [eexists _, _; reflexivity|].
  apply IH.
  - intros c Hc. apply Hcs. right. exact Hc.
  - pose proof (measure_mono _ _ Hs). lia.
Qed.

Lemma related_total f :
  ir_closed ir → phi_blocks_wf ir →
  ∀ A B st, A < nvalues ir → B < nvalues ir → measure ir (CachedResults st) < f →
  ∃ r st', related ir f A B st = Some (r, st').
Proof.
  intros Hcl Hwf. induction f as [|f IH]; intros A B st HA HB Hm; [lia|].
  rewrite related_S. set (k := key_of A B).
  destruct (CachedResults st !! k) as [v|] eqn:Hk; [eexists _, _; reflexivity|].
  rewrite relatedCheck_node.
  assert (Hk1 : k.1 < nvalues ir ∧ k.2 < nvalues ir).
  { unfold k, key_of. destruct (B <? A); simpl; lia. }
  pose proof (measure_pending (CachedResults st) k (key_of_in A B HA HB) Hk) as Hmp.
  destruct (node_of_total k.1 k.2 Hcl Hwf (proj1 Hk1) (proj2 Hk1))
    as [[b Hb]|(cs & Hcs & Hbd)].
  - rewrite Hb. simpl. eexists _, _. reflexivity.
  - rewrite Hcs. simpl.
    destruct (run_or_total (related ir f) f) with (cs := cs) (st := pending st k)
      as (r & st2 & E).
    + intros x y s Hx Hy Hms. destruct (IH x y s Hx Hy Hms) as (r & s' & E).
      exists r, s'. split; [exact E|]. exact (proj1 (proj1 (related_spec ir _ _ _ _ _ _ E))).
    + exact Hbd.
    + cbn [pending CachedResults]. lia.
    + rewrite E. eexists _, _. reflexivity.
Qed.

End Termination_facts.

(** *** Lemmas on the states reached by queries *)

Section Invariants_facts.

Variable ir : IR.

Lemma run_or_leaf_inv (rel : nat → nat → M bool)
  (Hrel : ∀ A B st r st', rel A B st = Some (r, st') →
     leaf_inv ir (CachedResults st) → leaf_inv ir (CachedResults st')) :
  ∀ cs tf st r st', run_or rel cs tf st = Some (r, st') →
  leaf_inv ir (CachedResults st) → leaf_inv ir (CachedResults st').
Proof.
  induction cs as [|[x y] cs IH]; intros tf st r st' E Hi.
  - simpl in E. destruct tf; [done|]. injection E as _ <-. exact Hi.
  - simpl in E. unfold orM, bind in E. destruct (rel x y st) as [[r1 st1]|] eqn:E1; [|done].
    destruct r1.
    + injection E as _ <-. exact (Hrel _ _ _ _ _ E1 Hi).
    + exact (IH _ _ _ _ E (Hrel _ _ _ _ _ E1 Hi)).
Qed.

Lemma related_leaf_inv f : ∀ A B st r st',
  related ir f A B st = Some (r, st') →
  leaf_inv ir (CachedResults st) → leaf_inv ir (CachedResults st').
Proof.
  induction f as [|f IH]; intros A B st r st' E Hi; [done|].
  rewrite related_S in E. set (k := key_of A B) in *.
  destruct (CachedResults st !! k) as [v|] eqn:Hk; [injection E as _ <-; exact Hi|].
  rewrite relatedCheck_node in E.
  destruct (node_of ir k.1 k.2) as [b|cs tf|] eqn:Hn; simpl in E; [| |done].
  - injection E as <- <-. cbn [finish pending CachedResults]. rewrite insert_insert_eq.
    intros x b' v' Hx Hv. destruct (decide (x = k)) as [->|Hne].
    + rewrite lookup_insert_eq in Hv. congruence.
    + rewrite lookup_insert_ne in Hv by congruence. exact (Hi x b' v' Hx Hv).
  - destruct (run_or (related ir f) cs tf (pending st k)) as [[r2 st2]|] eqn:E2; [|done].
    injection E as <- <-.
    assert (Hp : leaf_inv ir (CachedResults (pending st k))).
    { intros x b' v' Hx Hv. cbn [pending CachedResults] in Hv.
      destruct (decide (x = k)) as [->|Hne]; [congruence|].
      rewrite lookup_insert_ne in Hv by congruence. exact (Hi x b' v' Hx Hv). }
    pose proof (run_or_leaf_inv _ IH _ _ _ _ _ E2 Hp) as H2.
    intros x b' v' Hx Hv. cbn [finish CachedResults] in Hv.
    destruct (decide (x = k)) as [->|Hne]; [congruence|].
    rewrite lookup_insert_ne in Hv by congruence. exact (H2 x b' v' Hx Hv).
Qed.

Lemma reachable_leaf_inv st : reachable ir st → leaf_inv ir (CachedResults st).
Proof.
  induction 1 as [|f A B st r st' _ IH E].
  - intros k b v _ Hv. cbn in Hv. rewrite lookup_empty in Hv. done.
  - exact (related_leaf_inv _ _ _ _ _ _ E IH).
Qed.

(** A pair whose step is a leaf answers its leaf value at once. *)
Lemma related_leaf f A B st b :
  leaf_inv ir (CachedResults st) → node_of ir (key_of A B).1 (key_of A B).2 = NLeaf b →
  ∃ st', related ir (S f) A B st = Some (b, st').
Proof.
  intros Hi Hn. rewrite related_S.
  destruct (CachedResults st !! key_of A B) as [v|] eqn:Hk.
  - rewrite (Hi _ _ _ Hn Hk). eexists. reflexivity.
  - rewrite relatedCheck_node, Hn. eexists. reflexivity.
Qed.

Lemma count_check_app k t1 t2 : count_check k (t1 ++ t2) = count_check k t1 + count_check k t2.
Proof. induction t1 as [|[] t1 IH]; simpl; rewrite ?IH; lia. Qed.

Lemma count_write_app k t1 t2 : count_write k (t1 ++ t2) = count_write k t1 + count_write k t2.
Proof. induction t1 as [|[] t1 IH]; simpl; rewrite ?IH; lia. Qed.

Lemma count_absent k tr :
  (∀ e, e ∈ tr → event_key e ≠ k) → count_check k tr = 0 ∧ count_write k tr = 0.
Proof.
  induction tr as [|e tr IH]; intros H; [done|].
  destruct IH as [IH1 IH2]; [intros e' He'; apply H; right; exact He'|].
  assert (event_key e ≠ k) as Hne by (apply H; left).
  destruct e; simpl in *; rewrite ?IH1, ?IH2; case_decide; done.
Qed.

Lemma count_present k tr :
  0 < count_check k tr + count_write k tr → ∃ e, e ∈ tr ∧ event_key e = k.
Proof.
  induction tr as [|e tr IH]; simpl; [lia|]. intros H.
  assert (Htl : 0 < count_check k tr + count_write k tr →
                ∃ e', e' ∈ e :: tr ∧ event_key e' = k).
  { intros Hl. destruct (IH Hl) as (e' & He' & Hk). exists e'. split; [right|]; assumption. }
  destruct e as [k'|k'|k' r]; simpl in H;
    (case_decide; [subst; eexists; split; [left|reflexivity]|apply Htl; lia]).
Qed.

Lemma step_seg_refl st : step_seg st st.
Proof.
  split; [done|]. exists []. rewrite app_nil_r. split; [done|].
  split; [intros e He; inversion He|]. intros k; simpl; lia.
Qed.

Lemma step_seg_trans st1 st2 st3 : step_seg st1 st2 → step_seg st2 st3 → step_seg st1 st3.
Proof.
  intros [Hs1 (n1 & Ht1 & Hm1 & Hc1)] [Hs2 (n2 & Ht2 & Hm2 & Hc2)].
  split; [etrans; eauto|]. exists (n1 ++ n2).
  split; [rewrite Ht2, Ht1, app_assoc; reflexivity|]. split.
  - intros e He. apply elem_of_app in He as [He|He].
    + destruct (Hm1 e He) as [H1 [v Hv]]. split; [exact H1|].
      exists v. eapply lookup_weaken; eauto.
    + destruct (Hm2 e He) as [H1 H2]. split; [eapply lookup_weaken_None; eauto|exact H2].
  - intros k. rewrite count_check_app, count_write_app.
    destruct (Nat.eq_dec (count_check k n2 + count_write k n2) 0) as [Hz|Hnz].
    + specialize (Hc1 k). lia.
    + destruct (count_present k n2) as (e & He & Hk); [lia|].
      destruct (Hm2 e He) as [Hnone _]. rewrite Hk in Hnone.
      destruct (count_absent k n1) as [Z1 Z2].
      { intros e' He' Hk'. destruct (Hm1 e' He') as [_ [v Hv]]. rewrite Hk' in Hv. congruence. }
      specialize (Hc2 k). lia.
Qed.

Lemma run_or_seg (rel : nat → nat → M bool)
  (Hrel : ∀ A B st r st', rel A B st = Some (r, st') → step_seg st st') :
  ∀ cs tf st r st', run_or rel cs tf st = Some (r, st') → step_seg st st'.
Proof.
  induction cs as [|[x y] cs IH]; intros tf st r st' E.
  - simpl in E. destruct tf; [done|]. injection E as _ <-. apply step_seg_refl.
  - simpl in E. unfold orM, bind in E. destruct (rel x y st) as [[r1 st1]|] eqn:E1; [|done].
    destruct r1.
    + injection E as _ <-. exact (Hrel _ _ _ _ _ E1).
    + exact (step_seg_trans _ _ _ (Hrel _ _ _ _ _ E1) (IH _ _ _ _ E)).
Qed.

Lemma pending_finish_seg st k st2 r :
  CachedResults st !! k = None → step_seg (pending st k) st2 → step_seg st (finish st2 k r).
Proof.
  intros Hk [Hs (n & Ht & Hm & Hc)]. cbn [pending CachedResults trace] in Hs, Ht, Hm.
  assert (Hn : ∀ e, e ∈ n → event_key e ≠ k).
  { intros e He Hek. destruct (Hm e He) as [H _]. rewrite Hek, lookup_insert_eq in H. done. }
  split; [|exists ([EvInsert k; EvCheck k] ++ n ++ [EvOverwrite k r]); split; [|split]].
  - apply map_subseteq_spec. intros x v Hx. cbn [finish CachedResults].
    destruct (decide (x = k)) as [->|Hne]; [congruence|].
    rewrite lookup_insert_ne by congruence. eapply lookup_weaken; [|exact Hs].
    rewrite lookup_insert_ne by congruence. exact Hx.
  - cbn [finish trace]. rewrite Ht. rewrite <- !app_assoc. reflexivity.
  - intros e He. cbn [finish CachedResults].
    apply elem_of_app in He as [He|He]; [|apply elem_of_app in He as [He|He]].
    + assert (event_key e = k) as ->.
      { repeat (apply elem_of_cons in He as [->|He]; [reflexivity|]). inversion He. }
      split; [exact Hk|]. rewrite lookup_insert_eq. eexists; reflexivity.
    + pose proof (Hn e He) as Hne. destruct (Hm e He) as [H1 [v Hv]].
      rewrite lookup_insert_ne in H1 by congruence. split; [exact H1|].
      rewrite lookup_insert_ne by congruence. exists v. exact Hv.
    + apply list_elem_of_singleton in He as ->. split; [exact Hk|].
      simpl. rewrite lookup_insert_eq. eexists; reflexivity.
  - intros k'. rewrite !count_check_app, !count_write_app. simpl.
    specialize (Hc k'). destruct (decide (k = k')) as [<-|Hne]; [|lia].
    destruct (count_absent k n Hn) as [Z1 Z2]. lia.
Qed.

Lemma related_seg f : ∀ A B st r st', related ir f A B st = Some (r, st') → step_seg st st'.
Proof.
  induction f as [|f IH]; intros A B st r st' E; [done|].
  rewrite related_S in E. set (k := key_of A B) in *.
  destruct (CachedResults st !! k) as [v|] eqn:Hk; [injection E as _ <-; apply step_seg_refl|].
  rewrite relatedCheck_node in E.
  destruct (node_of ir k.1 k.2) as [b|cs tf|] eqn:Hn; simpl in E; [| |done].
  - injection E as <- <-. apply pending_finish_seg; [exact Hk|apply step_seg_refl].
  - destruct (run_or (related ir f) cs tf (pending st k)) as [[r2 st2]|] eqn:E2; [|done].
    injection E as <- <-. apply pending_finish_seg; [exact Hk|].
    exact (run_or_seg _ IH _ _ _ _ _ E2).
Qed.

Lemma reachable_seg st : reachable ir st → step_seg init_state st.
Proof.
  induction 1 as [|f A B st r st' _ IH E]; [apply step_seg_refl|].
  exact (step_seg_trans _ _ _ IH (related_seg _ _ _ _ _ _ E)).
Qed.

End Invariants_facts.

(** *** Lemmas on reaching the structural decomposition *)

Section Decomposition_facts.

Variable ir : IR.

Abbreviation refuted_calls C cs := (Forall (fun c => refuted ir C (key_of c.1 c.2)) cs).

Lemma node_of_decompose A B :
  reaches_decomposition ir A B = true →
  node_of ir A B = decompose_node ir (GetUnderlyingObjCPtr ir A) (GetUnderlyingObjCPtr ir B).
Proof.
  unfold reaches_decomposition, node_of, escape_gate.
  set (A' := GetUnderlyingObjCPtr ir A). set (B' := GetUnderlyingObjCPtr ir B).
  destruct (A' =? B'); [done|]. destruct (alias ir A' B'); try done.
  destruct (IsObjCIdentifiedObject ir A'), (IsObjCIdentifiedObject ir B'),
    (isa_Load (kind ir A')), (isa_Load (kind ir B')); done.
Qed.

Lemma child_result g x y st k rx s :
  related ir g x y (pending st k) = Some (rx, s) →
  (rx = false ↔ refuted ir (<[k:=true]> (CachedResults st)) (key_of x y)).
Proof. intros E. exact (proj2 (proj2 (related_spec ir _ _ _ _ _ _ E))). Qed.

Lemma related_or_result f A B st r st' cs :
  CachedResults st !! key_of A B = None →
  node_of ir (key_of A B).1 (key_of A B).2 = NOr cs false →
  related ir f A B st = Some (r, st') →
  (r = false ↔ refuted_calls (<[key_of A B := true]> (CachedResults st)) cs).
Proof.
  intros Hk Hn E. rewrite (proj2 (proj2 (related_spec ir _ _ _ _ _ _ E))). split.
  - exact (refuted_pending_children ir _ _ _ _ Hk Hn).
  - intros H. apply (refuted_or ir _ _ cs Hk Hn).
    eapply Forall_impl; [exact H|]. intros c; apply refuted_pending_drop.
Qed.

Lemma existsb_false_iff (rs : list bool) :
  existsb id rs = false ↔ Forall (fun b => b = false) rs.
Proof.
  induction rs as [|b rs IH]; simpl; [split; [constructor|done]|].
  rewrite Forall_cons, <- IH. destruct b; simpl; intuition congruence.
Qed.

Lemma bool_from_false_iff (r r' : bool) : (r = false ↔ r' = false) → r = r'.
Proof. destruct r, r'; intuition congruence. Qed.

Lemma sameblock_calls_elem incA incB c :
  (sameblock_calls incA incB).2 = false →
  c ∈ (sameblock_calls incA incB).1 ↔
  ∃ x w, x ∈ incA ∧ getIncomingValueForBlock incB x.2 = Some w ∧ c = (x.1, w).
Proof.
  induction incA as [|[v blk] incA IH]; simpl.
  - intros _. split; [intros H; inversion H|]. intros (x & w & Hx & _). inversion Hx.
  - destruct (getIncomingValueForBlock incB blk) as [w|] eqn:Hw; [|done]. simpl.
    intros Htf. rewrite elem_of_cons, (IH Htf). split.
    + intros [->|(x & w' & Hx & Hw' & ->)].
      * exists (v, blk), w. split; [left|split; [exact Hw|reflexivity]].
      * exists x, w'. split; [right; exact Hx|split; [exact Hw'|reflexivity]].
    + intros (x & w' & Hx & Hw' & ->). apply elem_of_cons in Hx as [->|Hx].
      * left. simpl in Hw'. rewrite Hw in Hw'. injection Hw' as <-. reflexivity.
      * right. exists x, w'. split; [exact Hx|split; [exact Hw'|reflexivity]].
Qed.

Lemma sameblock_refuted C incA incB :
  (sameblock_calls incA incB).2 = false →
  refuted_calls C (sameblock_calls incA incB).1 ↔ phi_refuted ir C incA incB.
Proof.
  intros Htf. rewrite Forall_forall. split.
  - intros H x w Hx Hw. apply (H (x.1, w)). apply sameblock_calls_elem; [exact Htf|].
    exists x, w. auto.
  - intros H c Hc. apply sameblock_calls_elem in Hc as (x & w & Hx & Hw & ->); [|exact Htf].
    exact (H x w Hx Hw).
Qed.

(** With one consistent entry per predecessor, comparing [B]'s incoming
    values with [A]'s is comparing [A]'s with [B]'s. *)
Lemma phi_refuted_swap C pa pb a b incA incB :
  phi_blocks_wf ir → phi_values_wf ir → kind ir a = Phi pa incA → kind ir b = Phi pb incB →
  phi_refuted ir C incB incA → phi_refuted ir C incA incB.
Proof.
  intros _ Hv Ha Hb H x w Hx Hw.
  pose proof (getIncomingValueForBlock_in _ _ _ Hw) as Hin.
  specialize (H (w, x.2) x.1 Hin (Hv _ _ _ Ha x Hx)). simpl in H.
  rewrite key_of_comm. exact H.
Qed.

Lemma reaches_decomposition_sym (alias_sym : ∀ x y, alias ir x y = alias ir y x) A B :
  reaches_decomposition ir A B = reaches_decomposition ir B A.
Proof.
  unfold reaches_decomposition, escape_gate. rewrite Nat.eqb_sym, alias_sym.
  destruct (IsObjCIdentifiedObject ir (GetUnderlyingObjCPtr ir A)),
    (IsObjCIdentifiedObject ir (GetUnderlyingObjCPtr ir B)),
    (isa_Load (kind ir (GetUnderlyingObjCPtr ir A))),
    (isa_Load (kind ir (GetUnderlyingObjCPtr ir B))); simpl; rewrite ?andb_false_r; reflexivity.
Qed.

Lemma results_phi_refuted st k incA incB rs :
  Forall2 (fun x rx => ∃ g w s, getIncomingValueForBlock incB x.2 = Some w ∧
                                related ir g x.1 w (pending st k) = Some (rx, s)) incA rs →
  (Forall (fun b => b = false) rs ↔ phi_refuted ir (<[k:=true]> (CachedResults st)) incA incB).
Proof.
  induction 1 as [|x rx l rs' Hx HF IH].
  - split; [intros _ y w Hy; inversion Hy|constructor].
  - destruct Hx as (g & w & s & Hw & Ex). rewrite Forall_cons, IH.
    rewrite (child_result _ _ _ _ _ _ _ Ex). split.
    + intros [Hr Hrest] y w' Hy Hw'. apply elem_of_cons in Hy as [->|Hy].
      * rewrite Hw in Hw'. injection Hw' as <-. exact Hr.
      * exact (Hrest y w' Hy Hw').
    + intros H. split.
      * apply (H x w); [left|exact Hw].
      * intros y w' Hy Hw'. apply (H y w'); [right; exact Hy|exact Hw'].
Qed.

Lemma unique_calls_elem incA B v blk seen :
  (v, blk) ∈ incA → v ∉ seen → (v, B) ∈ unique_calls incA B seen.
Proof.
  revert seen. induction incA as [|[v' blk'] incA IH]; intros seen Hin Hs; [inversion Hin|].
  simpl. case_bool_decide as Hv'.
  - apply elem_of_cons in Hin as [Heq|Hin]; [injection Heq as -> ->; done|].
    exact (IH seen Hin Hs).
  - destruct (decide (v = v')) as [->|Hne]; [left|].
    apply elem_of_cons in Hin as [Heq|Hin]; [injection Heq as -> ->; done|].
    right. apply IH; [exact Hin|]. intros H. apply elem_of_cons in H as [->|H]; done.
Qed.

Lemma measure_bound C : measure ir C ≤ nvalues ir * nvalues ir.
Proof.
  unfold measure, all_keys. etrans; [apply List.filter_length_le|].
  rewrite length_prod, length_seq. lia.
Qed.

Lemma related_total_bound :
  ir_closed ir → phi_blocks_wf ir → ∀ A B st, A < nvalues ir → B < nvalues ir →
  ∃ r st', related ir (S (nvalues ir * nvalues ir)) A B st = Some (r, st').
Proof.
  intros Hcl Hwf A B st HA HB. apply related_total; try assumption.
  pose proof (measure_bound (CachedResults st)). lia.
Qed.

End Decomposition_facts.

(** ** The step a query takes, by the shape of its operands *)

Section Steps.

Variable ir : IR.

Lemma node_of_key_reaches (alias_sym : ∀ x y, alias ir x y = alias ir y x) A B :
  reaches_decomposition ir A B = true →
  reaches_decomposition ir (key_of A B).1 (key_of A B).2 = true.
Proof.
  intros H. unfold key_of. destruct (B <? A); simpl; [|exact H].
  rewrite reaches_decomposition_sym; assumption.
Qed.

Lemma decompose_select_same c t1 f1 t2 f2 A B :
  kind ir A = Select c t1 f1 → kind ir B = Select c t2 f2 →
  decompose_node ir A B = NOr [(t1, t2); (f1, f2)] false.
Proof.
  intros HA HB. unfold decompose_node, select_node. rewrite HA, HB, Nat.eqb_refl. reflexivity.
Qed.

Lemma decompose_phi_same p incA incB A B :
  kind ir A = Phi p incA → kind ir B = Phi p incB →
  decompose_node ir A B = NOr (sameblock_calls incA incB).1 (sameblock_calls incA incB).2.
Proof.
  intros HA HB. unfold decompose_node, phi_node. rewrite HA, HB, Nat.eqb_refl. reflexivity.
Qed.

Lemma decompose_phi_other pa incA A B :
  kind ir A = Phi pa incA → isa_Phi (kind ir B) = false →
  decompose_node ir A B = NOr (unique_calls incA B []) false ∧
  decompose_node ir B A = NOr (unique_calls incA B []) false.
Proof.
  intros HA HB. unfold decompose_node, phi_node. rewrite HA.
  destruct (kind ir B); try discriminate; split; reflexivity.
Qed.

Lemma node_of_escape A B :
  GetUnderlyingObjCPtr ir A ≠ GetUnderlyingObjCPtr ir B →
  alias ir (GetUnderlyingObjCPtr ir A) (GetUnderlyingObjCPtr ir B) = MayAlias →
  IsObjCIdentifiedObject ir (GetUnderlyingObjCPtr ir A) = true →
  isa_Load (kind ir (GetUnderlyingObjCPtr ir B)) = true →
  node_of ir A B = leaf_of (isStoredObjCPointer ir (GetUnderlyingObjCPtr ir A)).
Proof.
  intros Hne Hal HidA HlB. unfold node_of. cbv zeta.
  apply Nat.eqb_neq in Hne. rewrite Hne, Hal, HidA, HlB. reflexivity.
Qed.

(** The same query with the operands in the other order checks [A] too,
    unless [A] is a load and [B] is identified. *)
Lemma node_of_escape_rev A B :
  GetUnderlyingObjCPtr ir A ≠ GetUnderlyingObjCPtr ir B →
  alias ir (GetUnderlyingObjCPtr ir B) (GetUnderlyingObjCPtr ir A) = MayAlias →
  IsObjCIdentifiedObject ir (GetUnderlyingObjCPtr ir A) = true →
  isa_Load (kind ir (GetUnderlyingObjCPtr ir B)) = true →
  isa_Load (kind ir (GetUnderlyingObjCPtr ir A)) = false ∨
  IsObjCIdentifiedObject ir (GetUnderlyingObjCPtr ir B) = false →
  node_of ir B A = leaf_of (isStoredObjCPointer ir (GetUnderlyingObjCPtr ir A)).
Proof.
  intros Hne Hal HidA HlB Hor. unfold node_of. cbv zeta.
  assert (Hne' : GetUnderlyingObjCPtr ir B ≠ GetUnderlyingObjCPtr ir A) by congruence.
  apply Nat.eqb_neq in Hne'. rewrite Hne', Hal, HidA, HlB.
  destruct (IsObjCIdentifiedObject ir (GetUnderlyingObjCPtr ir B)); [|reflexivity].
  destruct Hor as [HlA|HidB]; [rewrite HlA; reflexivity|discriminate].
Qed.

Lemma node_of_identified A B :
  GetUnderlyingObjCPtr ir A ≠ GetUnderlyingObjCPtr ir B →
  alias ir (GetUnderlyingObjCPtr ir A) (GetUnderlyingObjCPtr ir B) = MayAlias →
  IsObjCIdentifiedObject ir (GetUnderlyingObjCPtr ir A) = true →
  IsObjCIdentifiedObject ir (GetUnderlyingObjCPtr ir B) = true →
  isa_Load (kind ir (GetUnderlyingObjCPtr ir A)) = false →
  isa_Load (kind ir (GetUnderlyingObjCPtr ir B)) = false →
  node_of ir A B = NLeaf false.
Proof.
  intros Hne Hal HidA HidB HlA HlB. unfold node_of. cbv zeta.
  apply Nat.eqb_neq in Hne. rewrite Hne, Hal, HidA, HidB, HlA, HlB. reflexivity.
Qed.

(** No use of a traversed value escapes when each one is a call argument,
    the address operand of a store, or a forwarding use of a value that is
    not a [ptrtoint]. *)
Lemma isStored_no_escape V b :
  (∀ P u, traversed ir V P → u ∈ uses ir P →
     isa_Call (kind ir u.1) = true ∨
     (isa_Store (kind ir u.1) = true ∧ u.2 ≠ 0) ∨
     (isa_Store (kind ir u.1) = false ∧ isa_Call (kind ir u.1) = false ∧
      isa_PtrToInt (kind ir P) = false)) →
  isStoredObjCPointer ir V = Some b → b = false.
Proof.
  intros Hall Hs. destruct b; [|reflexivity]. exfalso.
  destruct (proj1 (isStoredObjCPointer_spec ir V true Hs) eq_refl) as (P & u & Ht & Hu & He).
  destruct (Hall P u Ht Hu) as [Hc|[[Hst Hop]|(Hst & Hc & Hp)]];
    destruct He as [[Hst' Hop']|(Hst' & Hc' & Hp')]; try congruence.
  destruct (kind ir u.1); discriminate.
Qed.

End Steps.

(** ** Facts about the example programs *)

Lemma table_alias_sym tbl a b : table_alias tbl a b = table_alias tbl b a.
Proof.
  unfold table_alias. rewrite Nat.eqb_sym. destruct (b =? a); [reflexivity|].
  induction tbl as [|[[x y] r] tbl IH]; simpl; [reflexivity|].
  rewrite orb_comm, IH. reflexivity.
Qed.

Lemma table_alias_refl tbl a : table_alias tbl a a = MustAlias.
Proof. unfold table_alias. rewrite Nat.eqb_refl. reflexivity. Qed.

Lemma run_eq o : (∃ r s, o = Some (r, s)) → o = Some (run_result o, run_state o).
Proof. intros (r & s & ->). reflexivity. Qed.

Lemma table_alias_self tbl x : table_alias tbl x x ≠ NoAlias.
Proof. rewrite table_alias_refl. discriminate. Qed.

Lemma ir_selfphi_closed : ir_closed ir_selfphi.
Proof.
  split.
  - intros v u Hv Hu. simpl in Hv. destruct v as [|[|[|v]]]; simpl in Hu; elem_cases Hu; lia.
  - intros v Hv. simpl in Hv. split; [simpl; lia|split].
    + intros p inc Hk x Hx. destruct v as [|[|v]]; simpl in Hk; try discriminate.
      injection Hk as <- <-. elem_cases Hx.
    + intros c t f Hk. destruct v as [|[|v]]; simpl in Hk; discriminate.
Qed.

Lemma ir_selfphi_blocks : phi_blocks_wf ir_selfphi.
Proof.
  intros a b p inca incb Ha Hb x Hx.
  destruct a as [|[|a]]; simpl in Ha; try discriminate.
  destruct b as [|[|b]]; simpl in Hb; try discriminate.
  injection Hb; injection Ha; intros; subst.
  repeat (apply elem_of_cons in Hx as [->|Hx]; [eexists; reflexivity|]). inversion Hx.
Qed.

Lemma ir_phi_blocks : phi_blocks_wf ir_phi.
Proof.
  intros a b p inca incb Ha Hb x Hx.
  destruct a as [|[|a]]; simpl in Ha; try discriminate;
    (destruct b as [|[|b]]; simpl in Hb; try discriminate);
    injection Hb; injection Ha; intros; subst;
    (repeat (apply elem_of_cons in Hx as [->|Hx]; [eexists; reflexivity|]); inversion Hx).
Qed.

Lemma ir_phi_values : phi_values_wf ir_phi.
Proof.
  intros v p inc Hk x Hx.
  destruct v as [|[|v]]; simpl in Hk; try discriminate; injection Hk as _ <-;
    (repeat (apply elem_of_cons in Hx as [->|Hx]; [reflexivity|]); inversion Hx).
Qed.

Lemma ir_ptrtoint_arith_closed : uses_closed ir_ptrtoint_arith.
Proof.
  intros v u Hv Hu. simpl in Hv.
  destruct v as [|[|[|[|[|v]]]]]; simpl in Hu; elem_cases Hu; lia.
Qed.

Lemma ir_loads_closed : uses_closed ir_loads.
Proof.
  intros v u Hv Hu. simpl in Hv.
  destruct v as [|[|[|[|[|v]]]]]; simpl in Hu; elem_cases Hu; lia.
Qed.

(** From the load [1] of [ir_loads] nothing is forwarded: its only use is
    a call argument. *)
Lemma ir_loads_traversed_1 P : traversed ir_loads 1 P → P = 1.
Proof.
  induction 1 as [|P Ur _ IH Hf]; [reflexivity|]. subst P.
  destruct Hf as (opno & Hin & _ & Hc & _). simpl in Hin.
  apply elem_of_cons in Hin as [Heq|Hin]; [|inversion Hin].
  injection Heq as -> _. discriminate.
Qed.

Lemma ir_loads_call_only P u :
  traversed ir_loads 1 P → u ∈ uses ir_loads P →
  isa_Call (kind ir_loads u.1) = true ∨
  (isa_Store (kind ir_loads u.1) = true ∧ u.2 ≠ 0) ∨
  (isa_Store (kind ir_loads u.1) = false ∧ isa_Call (kind ir_loads u.1) = false ∧
   isa_PtrToInt (kind ir_loads P) = false).
Proof.
  intros Ht Hu. rewrite (ir_loads_traversed_1 P Ht) in Hu |- *. simpl in Hu.
  apply elem_of_cons in Hu as [->|Hu]; [left; reflexivity|inversion Hu].
Qed.

(** * The claims *)

(** C2.  If the base alias oracle answers [NoAlias] for the canonical
    values of [A] and [B], then [related A B] returns [false], at every
    state one analysis instance reaches through a sequence of queries.
    The oracle is symmetric and never answers [NoAlias] for a value and
    itself (its [NoAlias] is a sound guarantee). *)
Theorem related_noalias_false ir
    (alias_sym : ∀ x y, alias ir x y = alias ir y x)
    (alias_self : ∀ x, alias ir x x ≠ NoAlias)
    f A B st :
  reachable ir st →
  alias ir (GetUnderlyingObjCPtr ir A) (GetUnderlyingObjCPtr ir B) = NoAlias →
  ∃ st', related ir (S f) A B st = Some (false, st').
Proof.
  intros Hr Hna. apply related_leaf; [exact (reachable_leaf_inv ir st Hr)|].
  assert (Hk : alias ir (GetUnderlyingObjCPtr ir (key_of A B).1)
                        (GetUnderlyingObjCPtr ir (key_of A B).2) = NoAlias).
  { unfold key_of. destruct (B <? A); simpl; [rewrite alias_sym|]; exact Hna. }
  unfold node_of. cbv zeta.
  destruct (GetUnderlyingObjCPtr ir (key_of A B).1 =? GetUnderlyingObjCPtr ir (key_of A B).2) eqn:E.
  - apply Nat.eqb_eq in E. rewrite E in Hk. destruct (alias_self _ Hk).
  - rewrite Hk. reflexivity.
Qed.

Lemma related_noalias_false_witness :
  ∃ st', related ir_noalias 1 0 1 init_state = Some (false, st').
Proof.
  apply (related_noalias_false ir_noalias (table_alias_sym _) (table_alias_self _) 0 0 1 init_state).
  - apply reachable_init.
  - reflexivity.
Defined.

(** C3.  [related] is symmetric: on one analysis instance, [related A B]
    and [related B A] give the same answer and the same next state from
    any state, and once [related A B] has answered [r], [related B A]
    answers [r] from the cache. *)
Theorem related_symmetric ir A B :
  (∀ f st, related ir f A B st = related ir f B A st) ∧
  (∀ f g st r st', related ir f A B st = Some (r, st') →
     related ir (S g) B A st' = Some (r, st')).
Proof.
  split; [intros f st; apply related_swap|].
  intros f g st r st' E. rewrite related_S, key_of_comm.
  rewrite (proj1 (proj2 (related_spec ir _ _ _ _ _ _ E))). reflexivity.
Qed.

Lemma related_symmetric_witness :
  related ir_selfphi 1 2 1 (run_state (related ir_selfphi 10 1 2 init_state)) =
  Some (true, run_state (related ir_selfphi 10 1 2 init_state)).
Proof.
  apply (proj2 (related_symmetric ir_selfphi 1 2) 10 0 init_state).
  vm_compute. reflexivity.
Defined.

(** C5.  Memoization.  In every state reached by a sequence of queries on
    one analysis instance, the trace records for each (ordered) pair at
    most one run of [relatedCheck] and at most two writes of its cache
    slot (the pending [true], then the final value); a query on a pair
    with a cache entry, pending or final, returns it and changes nothing
    (no recomputation, no event); and a repeated query answers as the
    first one did. *)
Theorem related_memoized ir :
  (∀ st, reachable ir st →
     ∀ k, count_check k (trace st) ≤ 1 ∧ count_write k (trace st) ≤ 2) ∧
  (∀ f A B st v, CachedResults st !! key_of A B = Some v →
     related ir (S f) A B st = Some (v, st)) ∧
  (∀ f g A B st r st', related ir f A B st = Some (r, st') →
     related ir (S g) A B st' = Some (r, st')).
Proof.
  split; [|split].
  - intros st Hr k. destruct (reachable_seg ir st Hr) as [_ (new & Ht & _ & Hc)].
    cbn [init_state trace] in Ht. rewrite Ht. exact (Hc k).
  - intros f A B st v Hv. rewrite related_S, Hv. reflexivity.
  - intros f g A B st r st' E. rewrite related_S.
    rewrite (proj1 (proj2 (related_spec ir _ _ _ _ _ _ E))). reflexivity.
Qed.

Lemma related_memoized_witness :
  count_check (1, 2) (trace (run_state (related ir_selfphi 10 1 2 init_state))) ≤ 1 ∧
  count_write (1, 2) (trace (run_state (related ir_selfphi 10 1 2 init_state))) ≤ 2.
Proof.
  apply (proj1 (related_memoized ir_selfphi)).
  apply (reachable_query ir_selfphi 10 1 2 init_state true); [apply reachable_init|].
  vm_compute. reflexivity.
Defined.

(** C8.  Two distinct identified objects (their canonical values differ,
    the oracle answers [MayAlias]), neither of which is a load result,
    are unrelated: [related A B] returns [false].  (Whether either is
    stored does not matter.) *)
Theorem related_identified_false ir
    (alias_sym : ∀ x y, alias ir x y = alias ir y x)
    f A B st :
  reachable ir st →
  IsObjCIdentifiedObject ir (GetUnderlyingObjCPtr ir A) = true →
  IsObjCIdentifiedObject ir (GetUnderlyingObjCPtr ir B) = true →
  isa_Load (kind ir (GetUnderlyingObjCPtr ir A)) = false →
  isa_Load (kind ir (GetUnderlyingObjCPtr ir B)) = false →
  GetUnderlyingObjCPtr ir A ≠ GetUnderlyingObjCPtr ir B →
  alias ir (GetUnderlyingObjCPtr ir A) (GetUnderlyingObjCPtr ir B) = MayAlias →
  ∃ st', related ir (S f) A B st = Some (false, st').
Proof.
  intros Hr HidA HidB HlA HlB Hne Hal.
  apply related_leaf; [exact (reachable_leaf_inv ir st Hr)|].
  unfold key_of. destruct (B <? A); simpl.
  - apply node_of_identified; try assumption; [congruence|rewrite alias_sym; exact Hal].
  - apply node_of_identified; assumption.
Qed.

Lemma related_identified_false_witness :
  ∃ st', related ir_identified 1 0 1 init_state = Some (false, st').
Proof.
  apply (related_identified_false ir_identified (table_alias_sym _) 0 0 1 init_state);
    [apply reachable_init|reflexivity..|simpl; lia|reflexivity].
Defined.

(** C1 (amended).  If a value [P] reached from [V] through the forward
    use graph the escape detector walks is a pointer-to-integer cast
    whose result has a use other than by a store or a call, then
    [isStoredObjCPointer V] returns [true].  In particular an identified
    object [A] cast so to an integer, compared against a load result [B]
    (canonical values distinct, the oracle answering [MayAlias]), gives
    [related A B = true], provided [A] is not itself a load or [B] is not
    identified.  The IR is closed under uses, so the detector's loop runs
    to its end. *)
Theorem isStored_ptrtoint_escape ir
    (alias_sym : ∀ x y, alias ir x y = alias ir y x) :
  uses_closed ir →
  (∀ V P u, V < nvalues ir → traversed ir V P → isa_PtrToInt (kind ir P) = true →
     u ∈ uses ir P → isa_Store (kind ir u.1) = false → isa_Call (kind ir u.1) = false →
     isStoredObjCPointer ir V = Some true) ∧
  (∀ f A B st P u, reachable ir st →
     GetUnderlyingObjCPtr ir A < nvalues ir →
     traversed ir (GetUnderlyingObjCPtr ir A) P → isa_PtrToInt (kind ir P) = true →
     u ∈ uses ir P → isa_Store (kind ir u.1) = false → isa_Call (kind ir u.1) = false →
     IsObjCIdentifiedObject ir (GetUnderlyingObjCPtr ir A) = true →
     isa_Load (kind ir (GetUnderlyingObjCPtr ir B)) = true →
     GetUnderlyingObjCPtr ir A ≠ GetUnderlyingObjCPtr ir B →
     alias ir (GetUnderlyingObjCPtr ir A) (GetUnderlyingObjCPtr ir B) = MayAlias →
     isa_Load (kind ir (GetUnderlyingObjCPtr ir A)) = false ∨
     IsObjCIdentifiedObject ir (GetUnderlyingObjCPtr ir B) = false →
     ∃ st', related ir (S f) A B st = Some (true, st')).
Proof.
  intros Hcl.
  assert (H1 : ∀ V P u, V < nvalues ir → traversed ir V P → isa_PtrToInt (kind ir P) = true →
     u ∈ uses ir P → isa_Store (kind ir u.1) = false → isa_Call (kind ir u.1) = false →
     isStoredObjCPointer ir V = Some true).
  { intros V P u HV Ht Hp Hu Hs Hc.
    destruct (isStoredObjCPointer_total ir V Hcl HV) as [b Hb]. rewrite Hb.
    f_equal. apply (isStoredObjCPointer_spec ir V b Hb).
    exists P, u. split; [exact Ht|split; [exact Hu|right; auto]]. }
  split; [exact H1|].
  intros f A B st P u Hr HA Ht Hp Hu Hs Hc HidA HlB Hne Hal Hor.
  pose proof (H1 _ _ _ HA Ht Hp Hu Hs Hc) as Hst.
  apply related_leaf; [exact (reachable_leaf_inv ir st Hr)|].
  unfold key_of. destruct (B <? A); simpl.
  - rewrite node_of_escape_rev, Hst; try reflexivity; try assumption.
    rewrite alias_sym. exact Hal.
  - rewrite node_of_escape, Hst; try reflexivity; assumption.
Qed.

Lemma isStored_ptrtoint_escape_witness :
  ∃ st', related ir_ptrtoint_arith 1 0 2 init_state = Some (true, st').
Proof.
  apply (proj2 (isStored_ptrtoint_escape ir_ptrtoint_arith (table_alias_sym _)
                  ir_ptrtoint_arith_closed) 0 0 2 init_state 1 (4, 0)).
  - apply reachable_init.
  - simpl. lia.
  - simpl. eapply trav_step; [apply trav_root|].
    exists 0. simpl. split; [left|split; [reflexivity|split; reflexivity]].
  - reflexivity.
  - simpl. right. left.
  - reflexivity.
  - reflexivity.
  - reflexivity.
  - reflexivity.
  - simpl. lia.
  - reflexivity.
  - left. reflexivity.
Defined.

(** C1 fails as stated: the identified object [0] is cast to the integer
    [1], which is only passed to a call; the cast is reached, yet the
    detector answers [false] and so does [related 0 2] against the load
    [2]. *)
Lemma isStored_ptrtoint_call_counterexample :
  traversed ir_ptrtoint_call 0 1 ∧ isa_PtrToInt (kind ir_ptrtoint_call 1) = true ∧
  IsObjCIdentifiedObject ir_ptrtoint_call 0 = true ∧ isa_Load (kind ir_ptrtoint_call 2) = true ∧
  isStoredObjCPointer ir_ptrtoint_call 0 = Some false ∧
  option_map fst (related ir_ptrtoint_call 5 0 2 init_state) = Some false.
Proof.
  split.
  - eapply trav_step; [apply trav_root|].
    exists 0. simpl. split; [left|split; [reflexivity|split; reflexivity]].
  - repeat split; vm_compute; reflexivity.
Qed.

(** C9 (amended).  If every use of every value the escape detector
    reaches from the identified object [A] is a call argument, the address
    operand of a store, or a forwarding use of a value that is not a
    pointer-to-integer cast (so [A], and what is derived from it, is never
    the stored value), then [isStoredObjCPointer A] returns [false]; and
    comparing [A] against a load result [B] (canonical values distinct,
    the oracle answering [MayAlias]) gives [related A B = false], provided
    [A] is not itself a load or [B] is not identified. *)
Theorem related_call_only_false ir
    (alias_sym : ∀ x y, alias ir x y = alias ir y x)
    f A B st :
  uses_closed ir → GetUnderlyingObjCPtr ir A < nvalues ir →
  (∀ P u, traversed ir (GetUnderlyingObjCPtr ir A) P → u ∈ uses ir P →
     isa_Call (kind ir u.1) = true ∨
     (isa_Store (kind ir u.1) = true ∧ u.2 ≠ 0) ∨
     (isa_Store (kind ir u.1) = false ∧ isa_Call (kind ir u.1) = false ∧
      isa_PtrToInt (kind ir P) = false)) →
  IsObjCIdentifiedObject ir (GetUnderlyingObjCPtr ir A) = true →
  isStoredObjCPointer ir (GetUnderlyingObjCPtr ir A) = Some false ∧
  (reachable ir st →
   isa_Load (kind ir (GetUnderlyingObjCPtr ir B)) = true →
   GetUnderlyingObjCPtr ir A ≠ GetUnderlyingObjCPtr ir B →
   alias ir (GetUnderlyingObjCPtr ir A) (GetUnderlyingObjCPtr ir B) = MayAlias →
   isa_Load (kind ir (GetUnderlyingObjCPtr ir A)) = false ∨
   IsObjCIdentifiedObject ir (GetUnderlyingObjCPtr ir B) = false →
   ∃ st', related ir (S f) A B st = Some (false, st')).
Proof.
  intros Hcl HA Hall HidA.
  destruct (isStoredObjCPointer_total ir _ Hcl HA) as [b Hb].
  pose proof (isStored_no_escape ir _ b Hall Hb) as ->.
  split; [exact Hb|]. intros Hr HlB Hne Hal Hor.
  apply related_leaf; [exact (reachable_leaf_inv ir st Hr)|].
  unfold key_of. destruct (B <? A); simpl.
  - rewrite node_of_escape_rev, Hb; try reflexivity; try assumption.
    rewrite alias_sym. exact Hal.
  - rewrite node_of_escape, Hb; try reflexivity; assumption.
Qed.

Lemma related_call_only_false_witness :
  isStoredObjCPointer ir_loads 1 = Some false ∧
  ∃ st', related ir_loads 1 1 4 init_state = Some (false, st').
Proof.
  destruct (related_call_only_false ir_loads (table_alias_sym _) 0 1 4 init_state
              ir_loads_closed ltac:(simpl; lia) ir_loads_call_only eq_refl) as [H1 H2].
  split; [exact H1|].
  apply H2; [apply reachable_init|reflexivity|simpl; lia|reflexivity|right; reflexivity].
Defined.

(** C9 fails as stated: the identified load [1] is only passed to a call
    and is never stored, but [related 1 0] against the identified load
    [0], which sits first in address order and is stored, returns [true]:
    the code checks the escape of [0], not of [1]. *)
Lemma related_call_only_counterexample :
  IsObjCIdentifiedObject ir_loads 1 = true ∧
  (∀ P u, traversed ir_loads 1 P → u ∈ uses ir_loads P →
     isa_Call (kind ir_loads u.1) = true ∨
     (isa_Store (kind ir_loads u.1) = true ∧ u.2 ≠ 0) ∨
     (isa_Store (kind ir_loads u.1) = false ∧ isa_Call (kind ir_loads u.1) = false ∧
      isa_PtrToInt (kind ir_loads P) = false)) ∧
  isStoredObjCPointer ir_loads 1 = Some false ∧
  isa_Load (kind ir_loads 0) = true ∧
  option_map fst (related ir_loads 5 1 0 init_state) = Some true.
Proof.
  split; [reflexivity|]. split; [exact ir_loads_call_only|].
  repeat split; vm_compute; reflexivity.
Qed.

(** C10.  When both canonical operands are identified objects and both
    are load results (distinct, the oracle answering [MayAlias]), the
    [relatedCheck] that [related] runs on the address-ordered pair returns
    the escape check of the canonical value of the first element and
    nothing else: the other operand is never checked, and [related A B]
    answers that check. *)
Theorem relatedCheck_identified_loads ir
    (alias_sym : ∀ x y, alias ir x y = alias ir y x)
    A B :
  IsObjCIdentifiedObject ir (GetUnderlyingObjCPtr ir A) = true →
  IsObjCIdentifiedObject ir (GetUnderlyingObjCPtr ir B) = true →
  isa_Load (kind ir (GetUnderlyingObjCPtr ir A)) = true →
  isa_Load (kind ir (GetUnderlyingObjCPtr ir B)) = true →
  GetUnderlyingObjCPtr ir A ≠ GetUnderlyingObjCPtr ir B →
  alias ir (GetUnderlyingObjCPtr ir A) (GetUnderlyingObjCPtr ir B) = MayAlias →
  (∀ rel st, relatedCheck ir rel (key_of A B).1 (key_of A B).2 st =
     liftM (isStoredObjCPointer ir (GetUnderlyingObjCPtr ir (key_of A B).1)) st) ∧
  (∀ f st b, reachable ir st →
     isStoredObjCPointer ir (GetUnderlyingObjCPtr ir (key_of A B).1) = Some b →
     ∃ st', related ir (S f) A B st = Some (b, st')).
Proof.
  intros HidA HidB HlA HlB Hne Hal.
  assert (Hn : node_of ir (key_of A B).1 (key_of A B).2 =
               leaf_of (isStoredObjCPointer ir (GetUnderlyingObjCPtr ir (key_of A B).1))).
  { unfold key_of. destruct (B <? A); simpl; apply node_of_escape; try assumption.
    - congruence.
    - rewrite alias_sym. exact Hal. }
  split.
  - intros rel st. rewrite relatedCheck_node, Hn, <- liftM_leaf. reflexivity.
  - intros f st b Hr Hb. apply related_leaf; [exact (reachable_leaf_inv ir st Hr)|].
    rewrite Hn, Hb. reflexivity.
Qed.

Lemma relatedCheck_identified_loads_witness :
  (∃ st', related ir_loads 1 1 0 init_state = Some (true, st')) ∧
  isStoredObjCPointer ir_loads 1 = Some false.
Proof.
  split; [|reflexivity].
  apply (proj2 (relatedCheck_identified_loads ir_loads (table_alias_sym _) 1 0
                  eq_refl eq_refl eq_refl eq_refl ltac:(simpl; lia) eq_refl) 0 init_state true).
  - apply reachable_init.
  - reflexivity.
Defined.

(** C4.  On a finite IR (every value it mentions is below [nvalues], and
    same-block phis have an entry for each other's incoming blocks),
    [related A B] terminates from any state, cyclic phi and select graphs
    included: [nvalues² + 1] nested queries suffice.  A self-referential
    phi [A] (one of its incoming values is [A] itself), queried against a
    value [B] that is not a phi once the query reaches the structural
    step, reaches the pair [A, B] again, finds its own pending entry there
    and answers [true]. *)
Theorem related_terminates ir
    (alias_sym : ∀ x y, alias ir x y = alias ir y x) :
  ir_closed ir → phi_blocks_wf ir →
  (∀ A B st, A < nvalues ir → B < nvalues ir →
     ∃ r st', related ir (S (nvalues ir * nvalues ir)) A B st = Some (r, st')) ∧
  (∀ A B pa incA blk st, A < nvalues ir → B < nvalues ir →
     kind ir A = Phi pa incA → (A, blk) ∈ incA →
     GetUnderlyingObjCPtr ir A = A → GetUnderlyingObjCPtr ir B = B →
     isa_Phi (kind ir B) = false → reaches_decomposition ir A B = true →
     CachedResults st !! key_of A B = None →
     ∃ st', related ir (S (nvalues ir * nvalues ir)) A B st = Some (true, st')).
Proof.
  intros Hcl Hwf. pose proof (related_total_bound ir Hcl Hwf) as Htot.
  split; [exact Htot|].
  intros A B pa incA blk st HA HB Hk Hin UA UB HnB Hreach Hnone.
  destruct (Htot A B st HA HB) as (r & st' & E). exists st'. rewrite E.
  destruct r; [reflexivity|exfalso].
  destruct (decompose_phi_other ir pa incA A B Hk HnB) as [D1 D2].
  assert (Hn : node_of ir (key_of A B).1 (key_of A B).2 = NOr (unique_calls incA B []) false).
  { rewrite node_of_decompose by (apply node_of_key_reaches; assumption).
    unfold key_of. destruct (B <? A); simpl; rewrite UA, UB; assumption. }
  pose proof (proj1 (related_or_result ir _ _ _ _ _ _ _ Hnone Hn E) eq_refl) as Hcs.
  rewrite Forall_forall in Hcs.
  specialize (Hcs (A, B) (unique_calls_elem incA B A blk [] Hin (not_elem_of_nil A))).
  simpl in Hcs. rewrite (refuted_cached ir _ _ true (lookup_insert_eq _ _ _)) in Hcs.
  discriminate.
Qed.

Lemma related_terminates_witness :
  ∃ st', related ir_selfphi 10 1 2 init_state = Some (true, st').
Proof.
  apply (proj2 (related_terminates ir_selfphi (table_alias_sym _) ir_selfphi_closed
                  ir_selfphi_blocks) 1 2 10 [(0, 20); (1, 21)] 21 init_state).
  - simpl. lia.
  - simpl. lia.
  - reflexivity.
  - right. left.
  - reflexivity.
  - reflexivity.
  - reflexivity.
  - reflexivity.
  - vm_compute. reflexivity.
Defined.

(** C6.  For [A = select c, T, F] against [B = select c, T2, F2] (the same
    condition value, both canonical), when the query reaches the
    structural step, [related A B] equals [related T T2 || related F F2],
    each evaluated, independently of the other, in the state where the
    pair [A, B] is pending.  In [ir_select], where [T] and [T2] are
    disjoint and [F] and [F2] overlap, the answer is [true]. *)
Theorem related_select_same_cond :
  (∀ ir, (∀ x y, alias ir x y = alias ir y x) →
   ∀ f g1 g2 A B c t1 f1 t2 f2 st r st' r1 s1 r2 s2,
   kind ir A = Select c t1 f1 → kind ir B = Select c t2 f2 →
   GetUnderlyingObjCPtr ir A = A → GetUnderlyingObjCPtr ir B = B →
   reaches_decomposition ir A B = true →
   CachedResults st !! key_of A B = None →
   related ir f A B st = Some (r, st') →
   related ir g1 t1 t2 (pending st (key_of A B)) = Some (r1, s1) →
   related ir g2 f1 f2 (pending st (key_of A B)) = Some (r2, s2) →
   r = r1 || r2) ∧
  option_map fst (related ir_select 10 2 4 init_state) = Some false ∧
  option_map fst (related ir_select 10 3 5 init_state) = Some true ∧
  option_map fst (related ir_select 10 0 1 init_state) = Some true.
Proof.
  split; [|vm_compute; repeat split].
  intros ir Hsym f g1 g2 A B c t1 f1 t2 f2 st r st' r1 s1 r2 s2
    HA HB UA UB Hreach Hk E E1 E2.
  assert (Hn : node_of ir (key_of A B).1 (key_of A B).2 =
               NOr (if B <? A then [(t2, t1); (f2, f1)] else [(t1, t2); (f1, f2)]) false).
  { rewrite node_of_decompose by (apply node_of_key_reaches; assumption).
    unfold key_of. destruct (B <? A); simpl; rewrite UA, UB;
      apply (decompose_select_same ir c); assumption. }
  pose proof (related_or_result ir _ _ _ _ _ _ _ Hk Hn E) as Hr.
  apply bool_from_false_iff. rewrite Hr, orb_false_iff.
  rewrite (child_result ir _ _ _ _ _ _ _ E1), (child_result ir _ _ _ _ _ _ _ E2).
  destruct (B <? A); rewrite !Forall_cons, Forall_nil; simpl;
    rewrite ?(key_of_comm t2 t1), ?(key_of_comm f2 f1); tauto.
Qed.

Lemma related_select_same_cond_witness :
  run_result (related ir_select 10 0 1 init_state) =
  run_result (related ir_select 10 2 4 (pending init_state (key_of 0 1))) ||
  run_result (related ir_select 10 3 5 (pending init_state (key_of 0 1))).
Proof.
  apply (proj1 related_select_same_cond ir_select (table_alias_sym _) 10 10 10 0 1 9 2 3 4 5
           init_state _ (run_state (related ir_select 10 0 1 init_state))
           _ (run_state (related ir_select 10 2 4 (pending init_state (key_of 0 1))))
           _ (run_state (related ir_select 10 3 5 (pending init_state (key_of 0 1))))).
  all: vm_compute; reflexivity.
Defined.

(** C7.  For two phis [A] and [B] of the same block (both canonical, the
    IR well formed: each has an entry for every incoming block of the
    other, and entries for one block agree), when the query reaches the
    structural step, [related A B] is the OR, over the incoming entries
    [i] of [A], of [related (A's i-th value) (B's value for A's i-th
    block)], each evaluated in the state where [A, B] is pending; no
    other pair of incoming values takes part. *)
Theorem related_phi_same_block ir
    (alias_sym : ∀ x y, alias ir x y = alias ir y x)
    f A B p incA incB st r st' rs :
  phi_blocks_wf ir → phi_values_wf ir →
  kind ir A = Phi p incA → kind ir B = Phi p incB →
  GetUnderlyingObjCPtr ir A = A → GetUnderlyingObjCPtr ir B = B →
  reaches_decomposition ir A B = true →
  CachedResults st !! key_of A B = None →
  related ir f A B st = Some (r, st') →
  Forall2 (fun x rx => ∃ g w s, getIncomingValueForBlock incB x.2 = Some w ∧
             related ir g x.1 w (pending st (key_of A B)) = Some (rx, s)) incA rs →
  r = existsb id rs.
Proof.
  intros Hbw Hvw HA HB UA UB Hreach Hk E HF.
  apply bool_from_false_iff. rewrite existsb_false_iff, (results_phi_refuted ir _ _ _ _ _ HF).
  destruct (B <? A) eqn:Eab.
  - assert (Hkey : key_of A B = (B, A)) by (unfold key_of; rewrite Eab; reflexivity).
    destruct (sameblock_calls_bounded incB incA) as [Htf _].
    { intros x Hx. exact (Hbw _ _ _ _ _ HB HA x Hx). }
    assert (Hn : node_of ir (key_of A B).1 (key_of A B).2 =
                 NOr (sameblock_calls incB incA).1 false).
    { rewrite node_of_decompose by (apply node_of_key_reaches; assumption).
      rewrite Hkey. simpl. rewrite UA, UB, (decompose_phi_same ir p incB incA B A HB HA), Htf.
      reflexivity. }
    rewrite (related_or_result ir _ _ _ _ _ _ _ Hk Hn E), (sameblock_refuted ir _ _ _ Htf).
    split.
    + exact (phi_refuted_swap ir _ _ _ A B incA incB Hbw Hvw HA HB).
    + exact (phi_refuted_swap ir _ _ _ B A incB incA Hbw Hvw HB HA).
  - assert (Hkey : key_of A B = (A, B)) by (unfold key_of; rewrite Eab; reflexivity).
    destruct (sameblock_calls_bounded incA incB) as [Htf _].
    { intros x Hx. exact (Hbw _ _ _ _ _ HA HB x Hx). }
    assert (Hn : node_of ir (key_of A B).1 (key_of A B).2 =
                 NOr (sameblock_calls incA incB).1 false).
    { rewrite node_of_decompose by (apply node_of_key_reaches; assumption).
      rewrite Hkey. simpl. rewrite UA, UB, (decompose_phi_same ir p incA incB A B HA HB), Htf.
      reflexivity. }
    rewrite (related_or_result ir _ _ _ _ _ _ _ Hk Hn E), (sameblock_refuted ir _ _ _ Htf).
    reflexivity.
Qed.

Lemma related_phi_same_block_witness :
  run_result (related ir_phi 10 0 1 init_state) = existsb id [false; false] ∧
  option_map fst (related ir_phi 10 2 5 init_state) = Some true.
Proof.
  split; [|vm_compute; reflexivity].
  apply (related_phi_same_block ir_phi (table_alias_sym _) 10 0 1 7 [(2, 20); (3, 21)]
           [(4, 20); (5, 21)] init_state _ (run_state (related ir_phi 10 0 1 init_state))
           [false; false] ir_phi_blocks ir_phi_values).
  1-7: vm_compute; reflexivity.
  constructor.
  - exists 10, 4, (run_state (related ir_phi 10 2 4 (pending init_state (key_of 0 1)))).
    split; vm_compute; reflexivity.
  - constructor; [|constructor].
    exists 10, 5, (run_state (related ir_phi 10 3 5 (pending init_state (key_of 0 1)))).
    split; vm_compute; reflexivity.
Defined.

(** * Further properties of the code *)

(** ** Helpers *)

Section Extra_helpers.

Variable ir : IR.

Abbreviation refuted_calls C cs := (Forall (fun c => refuted ir C (key_of c.1 c.2)) cs).

(** The node of the address-ordered pair, when it does not depend on the
    order of the operands. *)
Lemma node_of_key_sym A B n :
  node_of ir A B = n → node_of ir B A = n → node_of ir (key_of A B).1 (key_of A B).2 = n.
Proof. intros H1 H2. unfold key_of. destruct (B <? A); assumption. Qed.

Lemma unique_calls_elem_inv incA B seen c :
  c ∈ unique_calls incA B seen → ∃ x, x ∈ incA ∧ c = (x.1, B).
Proof.
  revert seen. induction incA as [|[v blk] incA IH]; intros seen Hc; simpl in Hc.
  - inversion Hc.
  - case_bool_decide.
    + destruct (IH _ Hc) as (x & Hx & ->). exists x. split; [right; exact Hx|reflexivity].
    + apply elem_of_cons in Hc as [->|Hc].
      * exists (v, blk). split; [left|reflexivity].
      * destruct (IH _ Hc) as (x & Hx & ->). exists x. split; [right; exact Hx|reflexivity].
Qed.

Lemma unique_refuted C incA B :
  refuted_calls C (unique_calls incA B []) ↔ ∀ x, x ∈ incA → refuted ir C (key_of x.1 B).
Proof.
  rewrite Forall_forall. split.
  - intros H [v blk] Hx. apply (H (v, B)).
    exact (unique_calls_elem incA B v blk [] Hx (not_elem_of_nil v)).
  - intros H c Hc. destruct (unique_calls_elem_inv _ _ _ _ Hc) as (x & Hx & ->).
    exact (H x Hx).
Qed.

Lemma results_unique_refuted st k incA B rs :
  Forall2 (fun (x : nat * nat) rx => ∃ g s, related ir g x.1 B (pending st k) = Some (rx, s)) incA rs →
  (Forall (fun b => b = false) rs ↔
   ∀ x, x ∈ incA → refuted ir (<[k:=true]> (CachedResults st)) (key_of x.1 B)).
Proof.
  induction 1 as [|x rx l rs' Hx HF IH].
  - split; [intros _ y Hy; inversion Hy|constructor].
  - destruct Hx as (g & s & Ex). rewrite Forall_cons, IH.
    rewrite (child_result ir _ _ _ _ _ _ _ Ex). split.
    + intros [Hr Hrest] y Hy. apply elem_of_cons in Hy as [->|Hy]; [exact Hr|exact (Hrest y Hy)].
    + intros H. split; [apply H; left|intros y Hy; apply H; right; exact Hy].
Qed.

(** A query whose step is an [||] over calls answers the [||] of the calls'
    answers, each evaluated in the state where the pair is pending. *)
Lemma related_or2 f A B st r st' x1 y1 x2 y2 g1 g2 r1 s1 r2 s2 :
  CachedResults st !! key_of A B = None →
  node_of ir (key_of A B).1 (key_of A B).2 = NOr [(x1, y1); (x2, y2)] false →
  related ir f A B st = Some (r, st') →
  related ir g1 x1 y1 (pending st (key_of A B)) = Some (r1, s1) →
  related ir g2 x2 y2 (pending st (key_of A B)) = Some (r2, s2) →
  r = r1 || r2.
Proof.
  intros Hk Hn E E1 E2. apply bool_from_false_iff.
  rewrite (related_or_result ir _ _ _ _ _ _ _ Hk Hn E), orb_false_iff.
  rewrite (child_result ir _ _ _ _ _ _ _ E1), (child_result ir _ _ _ _ _ _ _ E2).
  rewrite !Forall_cons, Forall_nil. simpl. tauto.
Qed.

(** The same for the unique sources of a phi. *)
Lemma related_unique f A B st r st' incA V rs :
  CachedResults st !! key_of A B = None →
  node_of ir (key_of A B).1 (key_of A B).2 = NOr (unique_calls incA V []) false →
  related ir f A B st = Some (r, st') →
  Forall2 (fun (x : nat * nat) rx => ∃ g s, related ir g x.1 V (pending st (key_of A B)) = Some (rx, s))
    incA rs →
  r = existsb id rs.
Proof.
  intros Hk Hn E HF. apply bool_from_false_iff.
  rewrite existsb_false_iff, (results_unique_refuted _ _ _ _ _ HF).
  rewrite (related_or_result ir _ _ _ _ _ _ _ Hk Hn E). apply unique_refuted.
Qed.

Lemma traversed_trans V P Q : traversed ir V P → traversed ir P Q → traversed ir V Q.
Proof.
  intros HP HQ. induction HQ as [|Q Ur _ IH Hf]; [exact HP|].
  exact (trav_step ir V Q Ur IH Hf).
Qed.

Lemma refuted_split C k x :
  C !! k = None → refuted ir C x → refuted ir (<[k:=true]> C) x ∨ refuted ir C k.
Proof.
  intros Hk [m Hm]. destruct (refutedn_avoid_step ir C k m x Hk Hm) as [H|(m' & _ & H)].
  - left. exact H.
  - right. exists m'. exact H.
Qed.

Lemma run_or_new (rel : nat → nat → M bool)
  (Hrel : ∀ A B st r st', rel A B st = Some (r, st') →
      query_ok ir (CachedResults st) (CachedResults st') r ∧
      (r = false ↔ refuted ir (CachedResults st) (key_of A B)) ∧
      new_ok ir (CachedResults st) (CachedResults st'))
  cs tf st r st' :
  run_or rel cs tf st = Some (r, st') → new_ok ir (CachedResults st) (CachedResults st').
Proof.
  assert (Hrel' : ∀ A B st r st', rel A B st = Some (r, st') →
      query_ok ir (CachedResults st) (CachedResults st') r ∧
      (r = false ↔ refuted ir (CachedResults st) (key_of A B))).
  { intros A B s r0 s0 E. destruct (Hrel _ _ _ _ _ E) as (H1 & H2 & _). split; assumption. }
  revert st. induction cs as [|[x y] cs IH]; intros st.
  - simpl. destruct tf; [done|]. intros [= <- <-] x v H1 H2. congruence.
  - simpl. unfold orM, bind. destruct (rel x y st) as [[r1 st1]|] eqn:E; [|done].
    destruct (Hrel _ _ _ _ _ E) as ([Hs1 Hf1] & _ & Hn1).
    destruct r1.
    + intros [= <- <-]. exact Hn1.
    + intros E2. pose proof (IH _ E2) as Hn2.
      destruct (run_or_spec ir rel Hrel' _ _ _ _ _ E2) as [[Hs2 _] _].
      intros z v Hz Hz'. destruct (CachedResults st1 !! z) as [v1|] eqn:Ez.
      * pose proof (lookup_weaken _ _ _ _ Ez Hs2) as Hw. rewrite Hz' in Hw.
        injection Hw as ->. exact (Hn1 z v1 Hz Ez).
      * rewrite (Hn2 z v Ez Hz'). exact (refuted_extend ir _ _ Hs1 (Hf1 eq_refl) z).
Qed.

(** The pairs a query caches hold [false] exactly when they are refuted
    from the cache it started from, pending entries inside it apart. *)
Lemma related_new f : ∀ A B st r st',
  related ir f A B st = Some (r, st') → new_ok ir (CachedResults st) (CachedResults st').
Proof.
  induction f as [|f IH]; intros A B st r st' H; [done|].
  pose proof (related_spec ir _ _ _ _ _ _ H) as (_ & _ & Hkey).
  rewrite related_S in H. set (k := key_of A B) in *.
  destruct (CachedResults st !! k) as [v|] eqn:Hk.
  - injection H as <- <-. intros x v' H1 H2. congruence.
  - rewrite relatedCheck_node in H.
    destruct (node_of ir k.1 k.2) as [b|cs tf|] eqn:Hn; simpl in H.
    + injection H as <- <-. cbn [finish pending CachedResults].
      intros x v H1 H2. destruct (decide (x = k)) as [->|Hne].
      * rewrite lookup_insert_eq in H2. injection H2 as <-. exact Hkey.
      * rewrite !lookup_insert_ne in H2 by congruence. congruence.
    + destruct (run_or (related ir f) cs tf (pending st k)) as [[r2 st2]|] eqn:E;
        [|done].
      injection H as <- <-.
      assert (Hrel : ∀ A B st r st', related ir f A B st = Some (r, st') →
                query_ok ir (CachedResults st) (CachedResults st') r ∧
                (r = false ↔ refuted ir (CachedResults st) (key_of A B)) ∧
                new_ok ir (CachedResults st) (CachedResults st')).
      { intros A' B' s r' s' Hs. destruct (related_spec ir _ _ _ _ _ _ Hs) as (? & _ & ?).
        split; [assumption|split; [assumption|exact (IH _ _ _ _ _ Hs)]]. }
      pose proof (run_or_new _ Hrel _ _ _ _ _ E) as Hn2.
      assert (Hrel' : ∀ A B st r st', related ir f A B st = Some (r, st') →
                query_ok ir (CachedResults st) (CachedResults st') r ∧
                (r = false ↔ refuted ir (CachedResults st) (key_of A B))).
      { intros A' B' s r' s' Hs. destruct (Hrel _ _ _ _ _ Hs) as (? & ? & _). split; assumption. }
      destruct (run_or_spec ir _ Hrel' _ _ _ _ _ E) as [[_ Hf2] _].
      cbn [pending finish CachedResults] in Hn2, Hf2 |- *.
      intros x v H1 H2. destruct (decide (x = k)) as [->|Hne].
      * rewrite lookup_insert_eq in H2. injection H2 as <-. exact Hkey.
      * rewrite lookup_insert_ne in H2 by congruence.
        assert (Hx : <[k:=true]> (CachedResults st) !! x = None)
          by (rewrite lookup_insert_ne by congruence; exact H1).
        rewrite (Hn2 x v Hx H2). split.
        -- apply refuted_pending_drop.
        -- intros Hr. destruct (refuted_split _ _ _ Hk Hr) as [Hd|Hck]; [exact Hd|].
           apply Hkey in Hck. subst r2. destruct (Hf2 eq_refl x v Hx H2) as [-> _].
           apply (Hn2 x false Hx H2). reflexivity.
    + done.
Qed.

(** A cache whose answers are those of a fresh instance refutes what the
    empty cache refutes. *)
Lemma good_refuted C : good_cache ir C → ∀ x, refuted ir C x ↔ refuted ir ∅ x.
Proof.
  intros Hg x. split.
  - intros [n Hn]. revert x Hn. induction n as [|n IHn]; intros x Hn; [done|].
    destruct Hn as [Hn|[Hn1 Hn2]].
    + exact (proj1 (Hg x false Hn) eq_refl).
    + destruct (node_of ir x.1 x.2) as [b|cs tf|] eqn:Hnd; try done.
      * subst b. apply (refuted_leaf ir _ _ false (lookup_empty x) Hnd). reflexivity.
      * destruct Hn2 as [-> Hcs]. apply refuted_or with cs; [apply lookup_empty|exact Hnd|].
        eapply Forall_impl; [exact Hcs|]. intros c Hc. apply IHn. exact Hc.
  - intros Hr. destruct Hr as [n Hn]. revert x Hn. induction n as [|n IHn]; intros x Hn; [done|].
    destruct (C !! x) as [v|] eqn:Hc.
    + apply (refuted_cached ir _ _ _ Hc). apply (Hg x v Hc). exists (S n). exact Hn.
    + destruct Hn as [Hn|[_ Hn2]]; [rewrite lookup_empty in Hn; discriminate|].
      destruct (node_of ir x.1 x.2) as [b|cs tf|] eqn:Hnd; try done.
      * subst b. apply (refuted_leaf ir _ _ false Hc Hnd). reflexivity.
      * destruct Hn2 as [-> Hcs]. apply refuted_or with cs; [exact Hc|exact Hnd|].
        eapply Forall_impl; [exact Hcs|]. intros c Hc'. apply IHn. exact Hc'.
Qed.

Lemma reachable_good st : reachable ir st → good_cache ir (CachedResults st).
Proof.
  induction 1 as [|f A B st r st' _ IH E].
  - intros x v H. cbn in H. rewrite lookup_empty in H. discriminate.
  - destruct (related_spec ir _ _ _ _ _ _ E) as [[Hs _] _].
    pose proof (related_new _ _ _ _ _ _ E) as Hn.
    intros x v Hx. destruct (CachedResults st !! x) as [v0|] eqn:E0.
    + pose proof (lookup_weaken _ _ _ _ E0 Hs) as Hw. rewrite Hx in Hw.
      injection Hw as ->. exact (IH x v0 E0).
    + rewrite (Hn x v E0 Hx). exact (good_refuted _ IH x).
Qed.

End Extra_helpers.

(** ** [relatedCheck]: the quick answers *)

(** X1.  Two values with the same underlying object are related: the
    quick check [A == B] on the canonical values answers [true]. *)
Theorem related_same_object ir f A B st :
  reachable ir st →
  GetUnderlyingObjCPtr ir A = GetUnderlyingObjCPtr ir B →
  ∃ st', related ir (S f) A B st = Some (true, st').
Proof.
  intros Hr Heq. apply related_leaf; [exact (reachable_leaf_inv ir st Hr)|].
  apply node_of_key_sym; unfold node_of; cbv zeta;
    rewrite Heq, Nat.eqb_refl; reflexivity.
Qed.

Lemma related_same_object_witness :
  ∃ st', related ir_cast 1 1 0 init_state = Some (true, st').
Proof. apply (related_same_object ir_cast 0 1 0 init_state); [apply reachable_init|reflexivity]. Defined.

(** X2.  When the base alias analysis answers [MustAlias] or
    [PartialAlias] for the canonical values, [related] answers [true]
    without further checks. *)
Theorem related_mustalias_true ir
    (alias_sym : ∀ x y, alias ir x y = alias ir y x)
    f A B st :
  reachable ir st →
  alias ir (GetUnderlyingObjCPtr ir A) (GetUnderlyingObjCPtr ir B) = MustAlias ∨
  alias ir (GetUnderlyingObjCPtr ir A) (GetUnderlyingObjCPtr ir B) = PartialAlias →
  ∃ st', related ir (S f) A B st = Some (true, st').
Proof.
  intros Hr Hal. apply related_leaf; [exact (reachable_leaf_inv ir st Hr)|].
  apply node_of_key_sym; unfold node_of; cbv zeta;
    destruct (_ =? _); try reflexivity; rewrite ?(alias_sym (GetUnderlyingObjCPtr ir B));
    destruct Hal as [-> | ->]; reflexivity.
Qed.

Lemma related_mustalias_true_witness :
  ∃ st', related ir_select 1 3 5 init_state = Some (true, st').
Proof.
  apply (related_mustalias_true ir_select (table_alias_sym _) 0 3 5 init_state);
    [apply reachable_init|left; reflexivity].
Defined.

(** X3.  The conservative answer: when the query reaches the structural
    step and neither canonical value is a phi or a select, [related]
    answers [true]. *)
Theorem related_conservative ir
    (alias_sym : ∀ x y, alias ir x y = alias ir y x)
    f A B st :
  reachable ir st →
  reaches_decomposition ir A B = true →
  isa_Phi (kind ir (GetUnderlyingObjCPtr ir A)) = false →
  isa_Phi (kind ir (GetUnderlyingObjCPtr ir B)) = false →
  isa_Select (kind ir (GetUnderlyingObjCPtr ir A)) = false →
  isa_Select (kind ir (GetUnderlyingObjCPtr ir B)) = false →
  ∃ st', related ir (S f) A B st = Some (true, st').
Proof.
  intros Hr Hreach HpA HpB HsA HsB.
  apply related_leaf; [exact (reachable_leaf_inv ir st Hr)|].
  assert (Hd : ∀ X Y, isa_Phi (kind ir X) = false → isa_Phi (kind ir Y) = false →
                 isa_Select (kind ir X) = false → isa_Select (kind ir Y) = false →
                 decompose_node ir X Y = NLeaf true).
  { intros X Y H1 H2 H3 H4. unfold decompose_node.
    destruct (kind ir X); try discriminate; destruct (kind ir Y); try discriminate; reflexivity. }
  apply node_of_key_sym; rewrite node_of_decompose; auto.
  rewrite reaches_decomposition_sym; assumption.
Qed.

Lemma related_conservative_witness :
  ∃ st', related ir_select 1 2 3 init_state = Some (true, st').
Proof.
  apply (related_conservative ir_select (table_alias_sym _) 0 2 3 init_state);
    [apply reachable_init|reflexivity..].
Defined.

(** X4.  The escape rule: for canonical values [A] identified and [B] a
    load (distinct, the oracle answering [MayAlias]), unless [A] is also a
    load and [B] also identified, [related A B] answers whatever
    [isStoredObjCPointer A] answers, in either operand order. *)
Theorem related_escape_rule ir
    (alias_sym : ∀ x y, alias ir x y = alias ir y x)
    f A B st b :
  reachable ir st →
  GetUnderlyingObjCPtr ir A ≠ GetUnderlyingObjCPtr ir B →
  alias ir (GetUnderlyingObjCPtr ir A) (GetUnderlyingObjCPtr ir B) = MayAlias →
  IsObjCIdentifiedObject ir (GetUnderlyingObjCPtr ir A) = true →
  isa_Load (kind ir (GetUnderlyingObjCPtr ir B)) = true →
  isa_Load (kind ir (GetUnderlyingObjCPtr ir A)) = false ∨
  IsObjCIdentifiedObject ir (GetUnderlyingObjCPtr ir B) = false →
  isStoredObjCPointer ir (GetUnderlyingObjCPtr ir A) = Some b →
  ∃ st', related ir (S f) A B st = Some (b, st').
Proof.
  intros Hr Hne Hal HidA HlB Hor Hb.
  apply related_leaf; [exact (reachable_leaf_inv ir st Hr)|].
  apply node_of_key_sym.
  - rewrite node_of_escape, Hb; try reflexivity; assumption.
  - rewrite node_of_escape_rev, Hb; try reflexivity; try assumption.
    rewrite alias_sym. exact Hal.
Qed.

Lemma related_escape_rule_witness :
  ∃ st', related ir_loads 1 0 4 init_state = Some (true, st').
Proof.
  apply (related_escape_rule ir_loads (table_alias_sym _) 0 0 4 init_state true).
  all: first [apply reachable_init | reflexivity | simpl; lia | right; reflexivity].
Defined.

(** ** [relatedSelect] and [relatedPHI]: the other branches *)

(** X5.  A select [A = select c, T, F] against a value [B] that is neither
    a phi nor a select (both canonical), when the query reaches the
    structural step: [related A B] equals [related T B || related F B],
    each evaluated in the state where the pair [A, B] is pending. *)
Theorem related_select_arms ir
    (alias_sym : ∀ x y, alias ir x y = alias ir y x)
    f g1 g2 A B c t e st r st' r1 s1 r2 s2 :
  kind ir A = Select c t e →
  isa_Phi (kind ir B) = false → isa_Select (kind ir B) = false →
  GetUnderlyingObjCPtr ir A = A → GetUnderlyingObjCPtr ir B = B →
  reaches_decomposition ir A B = true →
  CachedResults st !! key_of A B = None →
  related ir f A B st = Some (r, st') →
  related ir g1 t B (pending st (key_of A B)) = Some (r1, s1) →
  related ir g2 e B (pending st (key_of A B)) = Some (r2, s2) →
  r = r1 || r2.
Proof.
  intros HA HpB HsB UA UB Hreach Hk E E1 E2.
  eapply (related_or2 ir); [exact Hk| |exact E|exact E1|exact E2].
  assert (Hd : decompose_node ir A B = NOr [(t, B); (e, B)] false ∧
               decompose_node ir B A = NOr [(t, B); (e, B)] false).
  { unfold decompose_node, select_node. rewrite HA.
    destruct (kind ir B); try discriminate; split; reflexivity. }
  apply node_of_key_sym; rewrite node_of_decompose, UA, UB; try apply Hd; try assumption.
  rewrite reaches_decomposition_sym; assumption.
Qed.

Lemma related_select_arms_witness :
  run_result (related ir_select 10 0 4 init_state) =
  run_result (related ir_select 10 2 4 (pending init_state (key_of 0 4))) ||
  run_result (related ir_select 10 3 4 (pending init_state (key_of 0 4))).
Proof.
  apply (related_select_arms ir_select (table_alias_sym _) 10 10 10 0 4 9 2 3
           init_state _ (run_state (related ir_select 10 0 4 init_state))
           _ (run_state (related ir_select 10 2 4 (pending init_state (key_of 0 4))))
           _ (run_state (related ir_select 10 3 4 (pending init_state (key_of 0 4))))).
  all: vm_compute; reflexivity.
Defined.

(** X6.  Two selects on different conditions (both canonical, [A] below
    [B] in address order), when the query reaches the structural step:
    only the arms of [A] are split, [related A B] equals
    [related T_A B || related F_A B], each evaluated in the state where
    the pair is pending; the arms of [B] are not compared with [A]'s. *)
Theorem related_select_diff_cond ir
    (alias_sym : ∀ x y, alias ir x y = alias ir y x)
    f g1 g2 A B c1 t1 e1 c2 t2 e2 st r st' r1 s1 r2 s2 :
  kind ir A = Select c1 t1 e1 → kind ir B = Select c2 t2 e2 → c1 ≠ c2 → A < B →
  GetUnderlyingObjCPtr ir A = A → GetUnderlyingObjCPtr ir B = B →
  reaches_decomposition ir A B = true →
  CachedResults st !! key_of A B = None →
  related ir f A B st = Some (r, st') →
  related ir g1 t1 B (pending st (key_of A B)) = Some (r1, s1) →
  related ir g2 e1 B (pending st (key_of A B)) = Some (r2, s2) →
  r = r1 || r2.
Proof.
  intros HA HB Hc Hlt UA UB Hreach Hk E E1 E2.
  eapply (related_or2 ir); [exact Hk| |exact E|exact E1|exact E2].
  assert (Hkey : key_of A B = (A, B)).
  { unfold key_of. replace (B <? A) with false; [reflexivity|]. symmetry. apply Nat.ltb_ge. lia. }
  rewrite Hkey. simpl. rewrite node_of_decompose by exact Hreach. rewrite UA, UB.
  unfold decompose_node, select_node. rewrite HA, HB.
  apply Nat.eqb_neq in Hc. rewrite Hc. reflexivity.
Qed.

Lemma related_select_diff_cond_witness :
  run_result (related ir_select2 10 0 1 init_state) =
  run_result (related ir_select2 10 2 1 (pending init_state (key_of 0 1))) ||
  run_result (related ir_select2 10 3 1 (pending init_state (key_of 0 1))).
Proof.
  apply (related_select_diff_cond ir_select2 (table_alias_sym _) 10 10 10 0 1 8 2 3 9 4 5
           init_state _ (run_state (related ir_select2 10 0 1 init_state))
           _ (run_state (related ir_select2 10 2 1 (pending init_state (key_of 0 1))))
           _ (run_state (related ir_select2 10 3 1 (pending init_state (key_of 0 1))))).
  all: first [vm_compute; reflexivity | lia].
Defined.

(** X7.  A phi [A] against a value [B] that is not a phi (both canonical;
    [B] may be a select: the phi is split first), when the query reaches
    the structural step: [related A B] is the OR, over the incoming
    entries of [A], of [related (incoming value) B], each evaluated in
    the state where the pair [A, B] is pending.  A repeated incoming value
    is queried once, which does not change the answer; a phi without
    incoming entries is unrelated. *)
Theorem related_phi_sources ir
    (alias_sym : ∀ x y, alias ir x y = alias ir y x)
    f A B pa incA st r st' rs :
  kind ir A = Phi pa incA → isa_Phi (kind ir B) = false →
  GetUnderlyingObjCPtr ir A = A → GetUnderlyingObjCPtr ir B = B →
  reaches_decomposition ir A B = true →
  CachedResults st !! key_of A B = None →
  related ir f A B st = Some (r, st') →
  Forall2 (fun (x : nat * nat) rx =>
             ∃ g s, related ir g x.1 B (pending st (key_of A B)) = Some (rx, s)) incA rs →
  r = existsb id rs.
Proof.
  intros HA HpB UA UB Hreach Hk E HF.
  refine (related_unique ir _ _ _ _ _ _ incA B _ Hk _ E HF).
  destruct (decompose_phi_other ir pa incA A B HA HpB) as [D1 D2].
  apply node_of_key_sym; rewrite node_of_decompose, UA, UB; try assumption.
  rewrite reaches_decomposition_sym; assumption.
Qed.

Lemma related_phi_sources_witness :
  run_result (related ir_selfphi 10 1 2 init_state) =
  existsb id [run_result (related ir_selfphi 10 0 2 (pending init_state (key_of 1 2)));
              run_result (related ir_selfphi 10 1 2 (pending init_state (key_of 1 2)))].
Proof.
  apply (related_phi_sources ir_selfphi (table_alias_sym _) 10 1 2 10 [(0, 20); (1, 21)]
           init_state _ (run_state (related ir_selfphi 10 1 2 init_state))).
  1-7: vm_compute; reflexivity.
  constructor; [|constructor; [|constructor]].
  - exists 10, (run_state (related ir_selfphi 10 0 2 (pending init_state (key_of 1 2)))).
    vm_compute. reflexivity.
  - exists 10, (run_state (related ir_selfphi 10 1 2 (pending init_state (key_of 1 2)))).
    vm_compute. reflexivity.
Defined.

(** X8.  Two phis of different blocks (both canonical, [A] below [B] in
    address order), when the query reaches the structural step: each
    incoming value of [A] is compared with [B] as a whole, [related A B]
    being the OR of [related (incoming value of A) B], each evaluated in
    the state where the pair is pending; [B]'s incoming values are not
    split. *)
Theorem related_phi_diff_block ir
    (alias_sym : ∀ x y, alias ir x y = alias ir y x)
    f A B pa incA pb incB st r st' rs :
  kind ir A = Phi pa incA → kind ir B = Phi pb incB → pa ≠ pb → A < B →
  GetUnderlyingObjCPtr ir A = A → GetUnderlyingObjCPtr ir B = B →
  reaches_decomposition ir A B = true →
  CachedResults st !! key_of A B = None →
  related ir f A B st = Some (r, st') →
  Forall2 (fun (x : nat * nat) rx =>
             ∃ g s, related ir g x.1 B (pending st (key_of A B)) = Some (rx, s)) incA rs →
  r = existsb id rs.
Proof.
  intros HA HB Hp Hlt UA UB Hreach Hk E HF.
  refine (related_unique ir _ _ _ _ _ _ incA B _ Hk _ E HF).
  assert (Hkey : key_of A B = (A, B)).
  { unfold key_of. replace (B <? A) with false; [reflexivity|]. symmetry. apply Nat.ltb_ge. lia. }
  rewrite Hkey. simpl. rewrite node_of_decompose by exact Hreach. rewrite UA, UB.
  unfold decompose_node, phi_node. rewrite HA, HB.
  assert (Hp' : pb ≠ pa) by congruence. apply Nat.eqb_neq in Hp'. rewrite Hp'. reflexivity.
Qed.

Lemma related_phi_diff_block_witness :
  run_result (related ir_phi2 10 0 1 init_state) =
  existsb id [run_result (related ir_phi2 10 2 1 (pending init_state (key_of 0 1)));
              run_result (related ir_phi2 10 3 1 (pending init_state (key_of 0 1)))].
Proof.
  apply (related_phi_diff_block ir_phi2 (table_alias_sym _) 10 0 1 7 [(2, 20); (3, 21)]
           8 [(4, 20); (5, 21)] init_state _ (run_state (related ir_phi2 10 0 1 init_state))).
  1-9: first [vm_compute; reflexivity | lia].
  constructor; [|constructor; [|constructor]].
  - exists 10, (run_state (related ir_phi2 10 2 1 (pending init_state (key_of 0 1)))).
    vm_compute. reflexivity.
  - exists 10, (run_state (related ir_phi2 10 3 1 (pending init_state (key_of 0 1)))).
    vm_compute. reflexivity.
Defined.

(** ** [isStoredObjCPointer] *)

(** X9.  On an IR closed under uses, the escape detector always answers,
    even on a cyclic use graph (each value is pushed once), and it answers
    [true] exactly when a value it reaches through forwarding uses is
    stored as the stored value (operand [0] of a store), or is a
    pointer-to-integer cast with a use that is neither a store nor a
    call. *)
Theorem isStoredObjCPointer_answer ir V :
  uses_closed ir → V < nvalues ir →
  ∃ b, isStoredObjCPointer ir V = Some b ∧
       (b = true ↔ ∃ P u, traversed ir V P ∧ u ∈ uses ir P ∧ escaping_use ir P u).
Proof.
  intros Hcl HV. destruct (isStoredObjCPointer_total ir V Hcl HV) as [b Hb].
  exists b. split; [exact Hb|]. exact (isStoredObjCPointer_spec ir V b Hb).
Qed.

Lemma isStoredObjCPointer_answer_witness :
  isStoredObjCPointer ir_loads 0 = Some true ∧ isStoredObjCPointer ir_loads 1 = Some false.
Proof.
  destruct (isStoredObjCPointer_answer ir_loads 0 ir_loads_closed ltac:(simpl; lia)) as (b & Hb & _).
  split; [|vm_compute; reflexivity].
  rewrite Hb. f_equal. vm_compute in Hb. injection Hb as <-. reflexivity.
Defined.

(** X10.  An escape propagates back along forwarding uses: on an IR
    closed under uses, if the detector reaches [P] from [V] and answers
    [true] for [P], it answers [true] for [V]. *)
Theorem isStored_escape_back ir V P :
  uses_closed ir → V < nvalues ir → traversed ir V P →
  isStoredObjCPointer ir P = Some true → isStoredObjCPointer ir V = Some true.
Proof.
  intros Hcl HV Ht HP.
  destruct (proj1 (isStoredObjCPointer_spec ir P true HP) eq_refl) as (Q & u & HQ & Hu & He).
  destruct (isStoredObjCPointer_total ir V Hcl HV) as [b Hb]. rewrite Hb. f_equal.
  apply (isStoredObjCPointer_spec ir V b Hb).
  exists Q, u. split; [exact (traversed_trans ir V P Q Ht HQ)|split; assumption].
Qed.

Lemma isStored_escape_back_witness : isStoredObjCPointer ir_ptrtoint_arith 0 = Some true.
Proof.
  apply (isStored_escape_back ir_ptrtoint_arith 0 1 ir_ptrtoint_arith_closed).
  - simpl. lia.
  - eapply trav_step; [apply trav_root|].
    exists 0. simpl. split; [left|split; [reflexivity|split; reflexivity]].
  - vm_compute. reflexivity.
Defined.

(** ** [related]: the cache *)

(** X11.  A query keeps every entry already in the cache, leaves the
    answer it returns in the cache under the address-ordered pair, and
    only appends to the instrumentation trace; the entries it adds are
    for pairs that were not cached before. *)
Theorem related_cache_update ir f A B st r st' :
  related ir f A B st = Some (r, st') →
  CachedResults st ⊆ CachedResults st' ∧
  CachedResults st' !! key_of A B = Some r ∧
  (∃ new, trace st' = trace st ++ new ∧
          ∀ e, e ∈ new → CachedResults st !! event_key e = None).
Proof.
  intros E. destruct (related_spec ir _ _ _ _ _ _ E) as [[Hsub _] [Hk _]].
  destruct (related_seg ir _ _ _ _ _ _ E) as [_ (new & Ht & Hnew & _)].
  split; [exact Hsub|split; [exact Hk|]].
  exists new. split; [exact Ht|]. intros e He. exact (proj1 (Hnew e He)).
Qed.

Lemma related_cache_update_witness :
  CachedResults (run_state (related ir_selfphi 10 1 2 init_state)) !! (1, 2) = Some true.
Proof.
  destruct (related_cache_update ir_selfphi 10 1 2 init_state true
              (run_state (related ir_selfphi 10 1 2 init_state)))
    as (_ & Hk & _); [vm_compute; reflexivity|].
  exact Hk.
Defined.

(** X12.  Answers do not depend on the history of the analysis instance:
    in any state reached by a sequence of queries, [related A B] answers
    what it answers on a fresh instance (empty cache). *)
Theorem related_history_independent ir f g A B st r st' r0 s0 :
  reachable ir st →
  related ir f A B st = Some (r, st') →
  related ir g A B init_state = Some (r0, s0) →
  r = r0.
Proof.
  intros Hr E E0. apply bool_from_false_iff.
  rewrite (proj2 (proj2 (related_spec ir _ _ _ _ _ _ E))).
  rewrite (proj2 (proj2 (related_spec ir _ _ _ _ _ _ E0))).
  exact (good_refuted ir _ (reachable_good ir st Hr) (key_of A B)).
Qed.

Lemma related_history_independent_witness :
  run_result (related ir_selfphi 10 0 1 (run_state (related ir_selfphi 10 1 2 init_state))) =
  run_result (related ir_selfphi 10 0 1 init_state).
Proof.
  apply (related_history_independent ir_selfphi 10 10 0 1
           (run_state (related ir_selfphi 10 1 2 init_state)) _
           (run_state (related ir_selfphi 10 0 1 (run_state (related ir_selfphi 10 1 2 init_state))))
           _ (run_state (related ir_selfphi 10 0 1 init_state))).
  - apply (reachable_query ir_selfphi 10 1 2 init_state true); [apply reachable_init|].
    vm_compute. reflexivity.
  - vm_compute. reflexivity.
  - vm_compute. reflexivity.
Defined.
